(** * KF-Database: the [Base] store of [src/index.ts]

    A shallow embedding of the TypeScript class [Base] (a key/value store
    kept in one SQLite table, optionally mirrored in a JavaScript [Map])
    together with the parts of its collaborators that its methods call:
    [JSON.stringify]/[JSON.parse], lodash's [_.get], [_.set], [_.unset]
    and the parameter binder of better-sqlite3.  The [delete] of the
    package's earlier JavaScript class is embedded next to it ([Legacy]).

    Conventions of the embedding.
    - A finite JavaScript number is an integer ([VNum]) or a fraction
      [m / 2^e] with [m] odd ([VFrac]); [-0] is identified with [0], as
      [===] does.  [NaN] and the two infinities are values of their own.
      Arithmetic is not embedded: the methods only test numbers and write
      and read them as JSON.
    - A text is the sequence of its UTF-16 code units, each below 256.
    - A JavaScript object is an association list of its own enumerable
      properties, of distinct names, in the order of their insertion (the
      place JavaScript gives to integer-like names is not represented); a
      JavaScript array is the list of its elements, a hole being an
      element that reads [undefined].  The members the built-in
      prototypes define ([toString], [constructor], ...) are not Values
      and are not represented, and neither is a property of an array whose
      name is not an index: [Lodash.prop] and [Lodash.assignValue] say
      where the embedding stops, and the theorems that follow a path name
      the accessors they cover ([own_accessor], [data_accessor],
      [indexed]).
    - The [value] column of a row is represented by the JSON document that
      [JSON.parse] reads from it ([json]); [JSON_stringify] gives the
      document written for a value and [JSON_parse] the value read back.
    - A path is the accessor list lodash's [castPath] makes of the
      [string | number] argument.
    - A key is a primitive; a numeric key is an integer, and its text is
      its decimal numeral, which is what [toString] gives for the safe
      integers ([safe_key]).
    - Values are trees: an object is not shared between two places.  The
      embedding covers the instances in which no object is reachable from
      two entries of the mirror or from the caller; the theorems on calls
      that change an object in place say so ([unshared]). *)

From Stdlib Require Import ZArith NArith String Ascii List Bool Lia.
From stdpp Require Import base option list strings gmap pretty.

Set Warnings "-register-all".
Local Open Scope string_scope.
Local Open Scope Z_scope.

(** ** JavaScript values and JSON documents *)

Inductive value : Type :=
  | VUndefined
  | VNull
  | VBool (b : bool)
  | VNum (n : Z)
  | VFrac (m : Z) (e : positive)
  | VNaN
  | VInfinity (negative : bool)
  | VStr (s : string)
  | VArr (elems : list value)
  | VObj (props : list (string * value)).

(** What a JSON text can spell: no [undefined], no hole. *)
Inductive json : Type :=
  | JNull
  | JBool (b : bool)
  | JNum (n : Z)
  | JFrac (m : Z) (e : positive)
  | JStr (s : string)
  | JArr (elems : list json)
  | JObj (members : list (string * json)).

Section json_induction.
Variable P : json → Prop.
Hypothesis Hnull : P JNull.
Hypothesis Hbool : ∀ b, P (JBool b).
Hypothesis Hnum : ∀ n, P (JNum n).
Hypothesis Hfrac : ∀ m e, P (JFrac m e).
Hypothesis Hstr : ∀ s, P (JStr s).
Hypothesis Harr : ∀ l, Forall P l → P (JArr l).
Hypothesis Hobj : ∀ l, Forall (λ kv, P kv.2) l → P (JObj l).

Fixpoint json_nested_ind (j : json) : P j :=
  match j with
  | JNull => Hnull
  | JBool b => Hbool b
  | JNum n => Hnum n
  | JFrac m e => Hfrac m e
  | JStr s => Hstr s
  | JArr l =>
      Harr l ((fix go (l : list json) : Forall P l :=
                 match l with
                 | [] => Forall_nil_2 P
                 | x :: l' => Forall_cons_2 P x l' (json_nested_ind x) (go l')
                 end) l)
  | JObj l =>
      Hobj l ((fix go (l : list (string * json)) : Forall (λ kv, P kv.2) l :=
                 match l with
                 | [] => Forall_nil_2 _
                 | kv :: l' =>
                     Forall_cons_2 (λ kv, P kv.2) kv l' (json_nested_ind kv.2) (go l')
                 end) l)
  end.
End json_induction.

Section value_induction.
Variable P : value → Prop.
Hypothesis Hundefined : P VUndefined.
Hypothesis Hnull : P VNull.
Hypothesis Hbool : ∀ b, P (VBool b).
Hypothesis Hnum : ∀ n, P (VNum n).
Hypothesis Hfrac : ∀ m e, P (VFrac m e).
Hypothesis Hnan : P VNaN.
Hypothesis Hinfinity : ∀ b, P (VInfinity b).
Hypothesis Hstr : ∀ s, P (VStr s).
Hypothesis Harr : ∀ l, Forall P l → P (VArr l).
Hypothesis Hobj : ∀ l, Forall (λ kv, P kv.2) l → P (VObj l).

Fixpoint value_nested_ind (v : value) : P v :=
  match v with
  | VUndefined => Hundefined
  | VNull => Hnull
  | VBool b => Hbool b
  | VNum n => Hnum n
  | VFrac m e => Hfrac m e
  | VNaN => Hnan
  | VInfinity b => Hinfinity b
  | VStr s => Hstr s
  | VArr l =>
      Harr l ((fix go (l : list value) : Forall P l :=
                 match l with
                 | [] => Forall_nil_2 P
                 | x :: l' => Forall_cons_2 P x l' (value_nested_ind x) (go l')
                 end) l)
  | VObj l =>
      Hobj l ((fix go (l : list (string * value)) : Forall (λ kv, P kv.2) l :=
                 match l with
                 | [] => Forall_nil_2 _
                 | kv :: l' =>
                     Forall_cons_2 (λ kv, P kv.2) kv l' (value_nested_ind kv.2) (go l')
                 end) l)
  end.
End value_induction.

(** [JSON.parse]: the value a document reads back as. *)
Fixpoint JSON_parse (j : json) : value :=
  match j with
  | JNull => VNull
  | JBool b => VBool b
  | JNum n => VNum n
  | JFrac m e => VFrac m e
  | JStr s => VStr s
  | JArr l => VArr (List.map JSON_parse l)
  | JObj l => VObj (List.map (λ kv, (kv.1, JSON_parse kv.2)) l)
  end.

(** The members written for the properties of an object, [f] writing the
    values: a property whose value has no text is left out. *)
Definition members_with (f : value → option json) :
    list (string * value) → list (string * json) :=
  fix members (l : list (string * value)) : list (string * json) :=
    match l with
    | [] => []
    | (k, x) :: l' =>
        match f x with
        | Some d => (k, d) :: members l'
        | None => members l'
        end
    end.

(** [JSON.stringify]: the document written for a value.  [undefined] has no
    text ([None]); inside an array it is written [null], and a property
    whose value is [undefined] is left out.  A number that is not finite
    is written [null]. *)
Fixpoint JSON_stringify (v : value) : option json :=
  match v with
  | VUndefined => None
  | VNull => Some JNull
  | VBool b => Some (JBool b)
  | VNum n => Some (JNum n)
  | VFrac m e => Some (JFrac m e)
  | VNaN | VInfinity _ => Some JNull
  | VStr s => Some (JStr s)
  | VArr l => Some (JArr (List.map (λ e, default JNull (JSON_stringify e)) l))
  | VObj l => Some (JObj (members_with JSON_stringify l))
  end.

(** [x == null]. *)
Definition isNil (v : value) : bool :=
  match v with VUndefined | VNull => true | _ => false end.

(** The test of [if (x)]. *)
Definition truthy (v : value) : bool :=
  match v with
  | VUndefined | VNull => false
  | VBool b => b
  | VNum n => negb (n =? 0)
  | VFrac m _ => negb (m =? 0)
  | VNaN => false
  | VInfinity _ => true
  | VStr s => negb (String.eqb s EmptyString)
  | VArr _ | VObj _ => true
  end.

(** ** lodash *)

Module Lodash.

Definition path := list string.

Definition isObject (v : value) : bool :=
  match v with VArr _ | VObj _ => true | _ => false end.

Definition digit (c : ascii) : option N :=
  let n := N_of_ascii c in
  if ((48 <=? n) && (n <=? 57))%N then Some (n - 48)%N else None.

Fixpoint digits (s : string) (acc : N) : option N :=
  match s with
  | EmptyString => Some acc
  | String c s' =>
      match digit c with
      | Some d => digits s' (10 * acc + d)%N
      | None => None
      end
  end.

(** lodash's [reIsUint]: a lone 0, or digits that do not start with 0;
    with the number the match spells. *)
Definition reIsUint (s : string) : option N :=
  match s with
  | EmptyString => None
  | String c s' =>
      if Ascii.eqb c "0"
      then match s' with EmptyString => Some 0%N | _ => None end
      else digits s 0
  end.

Definition MAX_SAFE_INTEGER : N := 9007199254740991.

Definition isIndex (k : string) : bool :=
  match reIsUint k with
  | Some n => (n <? MAX_SAFE_INTEGER)%N
  | None => false
  end.

(** The property names that address an element of an array. *)
Definition array_index (k : string) : option nat :=
  match reIsUint k with
  | Some n => if (n <? 4294967295)%N then Some (N.to_nat n) else None
  | None => None
  end.

Fixpoint own (k : string) (ps : list (string * value)) : option value :=
  match ps with
  | [] => None
  | (k', x) :: ps' => if String.eqb k k' then Some x else own k ps'
  end.

(** [object[key]] on own data properties: the properties of an object, the
    elements and the [length] of an array or a text.  What a built-in
    prototype would answer for another name is not represented and reads
    [undefined] here. *)
Definition prop (object : value) (k : string) : value :=
  match object with
  | VObj ps => default VUndefined (own k ps)
  | VArr es =>
      match array_index k with
      | Some i => default VUndefined (es !! i)
      | None => if String.eqb k "length" then VNum (Z.of_nat (length es)) else VUndefined
      end
  | VStr s =>
      match array_index k with
      | Some i =>
          match String.get i s with
          | Some c => VStr (String c EmptyString)
          | None => VUndefined
          end
      | None => if String.eqb k "length" then VNum (Z.of_nat (String.length s)) else VUndefined
      end
  | _ => VUndefined
  end.

(** The loop of [baseGet]. *)
Fixpoint walk (object : value) (p : path) : value :=
  match p with
  | [] => object
  | k :: p' => if isNil object then VUndefined else walk (prop object k) p'
  end.

Definition baseGet (object : value) (p : path) : value :=
  match p with
  | [] => VUndefined
  | _ => walk object p
  end.

(** [_.get(object, path)]. *)
Definition get (object : value) (p : path) : value :=
  if isNil object then VUndefined else baseGet object p.

Fixpoint put (k : string) (x : value) (ps : list (string * value)) : list (string * value) :=
  match ps with
  | [] => [(k, x)]
  | (k', y) :: ps' => if String.eqb k k' then (k', x) :: ps' else (k', y) :: put k x ps'
  end.

Definition put_elem (i : nat) (x : value) (es : list value) : list value :=
  if (i <? length es)%nat then <[i := x]> es
  else es ++ replicate (i - length es) VUndefined ++ [x].

(** [object[key] = value] as [assignValue] performs it.  Writing a name
    that is not an index on an array is outside the embedding ([None]). *)
Definition assignValue (object : value) (k : string) (x : value) : option value :=
  match object with
  | VObj ps => Some (VObj (put k x ps))
  | VArr es =>
      match array_index k with
      | Some i => Some (VArr (put_elem i x es))
      | None => None
      end
  | _ => Some object
  end.

Definition unsafe_key (k : string) : bool :=
  String.eqb k "__proto__" || String.eqb k "constructor" || String.eqb k "prototype".

(** The loop of [baseSet], from the node it has reached. *)
Fixpoint baseSet_loop (nested : value) (p : path) (x : value) : option value :=
  match p with
  | [] => Some nested
  | k :: p' =>
      if unsafe_key k then Some nested
      else
        match p' with
        | [] => assignValue nested k x
        | next :: _ =>
            let objValue := prop nested k in
            let newValue :=
              if isObject objValue then objValue
              else if isIndex next then VArr [] else VObj [] in
            match baseSet_loop newValue p' x with
            | Some child => assignValue nested k child
            | None => None
            end
        end
  end.

Definition baseSet (object : value) (p : path) (x : value) : option value :=
  if isObject object then baseSet_loop object p x else Some object.

(** [_.set(object, path, value)]: the object after the call. *)
Definition set (object : value) (p : path) (x : value) : option value :=
  if isNil object then Some object else baseSet object p x.

Fixpoint remove (k : string) (ps : list (string * value)) : list (string * value) :=
  match ps with
  | [] => []
  | (k', y) :: ps' => if String.eqb k k' then ps' else (k', y) :: remove k ps'
  end.

(** [delete object[key]]: the object afterwards and the operator's result. *)
Definition delete_prop (object : value) (k : string) : value * bool :=
  match object with
  | VObj ps => (VObj (remove k ps), true)
  | VArr es =>
      match array_index k with
      | Some i => (VArr (<[i := VUndefined]> es), true)
      | None => (object, negb (String.eqb k "length"))
      end
  | VStr s =>
      match array_index k with
      | Some i => (object, negb (i <? String.length s)%nat)
      | None => (object, negb (String.eqb k "length"))
      end
  | _ => (object, true)
  end.

(** Puts back a child that was changed in place. *)
Definition replace_prop (object : value) (k : string) (x : value) : value :=
  match object with
  | VObj ps => VObj (put k x ps)
  | VArr es =>
      match array_index k with
      | Some i => VArr (<[i := x]> es)
      | None => object
      end
  | _ => object
  end.

Fixpoint baseUnset (object : value) (p : path) : value * bool :=
  match p with
  | [] => delete_prop object "undefined"
  | k :: p' =>
      match p' with
      | [] => delete_prop object k
      | _ :: _ =>
          let child := prop object k in
          if isNil child then (object, true)
          else
            let r := baseUnset child p' in
            (replace_prop object k r.1, r.2)
      end
  end.

(** [_.unset(object, path)]: the object after the call and the result. *)
Definition unset (object : value) (p : path) : value * bool :=
  if isNil object then (object, true) else baseUnset object p.

End Lodash.

(** ** Keys, exceptions and the better-sqlite3 binder *)

(** The primitives a caller can pass for [key]: the declared
    [string | number], and the values the methods test for at run time.
    An object passed as a key is outside the embedding. *)
Inductive key : Type :=
  | KStr (s : string)
  | KNum (n : Z)
  | KBool (b : bool)
  | KNull
  | KUndefined.

Inductive exn : Type :=
  | InvalidKey       (* 'The Database requires keys to be strings or numbers' *)
  | MissingDefault   (* 'No default value provided on ensure method ...' *)
  | BindError        (* better-sqlite3: 'SQLite3 can only bind numbers, strings,
                        bigints, buffers, and null' *)
  | TypeError        (* the JavaScript TypeError of a property access on
                        null or undefined, or of a refused [delete] *)
  | Unmodelled.      (* the call left the embedded fragment of JavaScript,
                        see [Lodash.assignValue] and [Legacy.splice] *)

Inductive outcome (A : Type) : Type :=
  | Return (a : A)
  | Throw (e : exn).
Arguments Return {A} a.
Arguments Throw {A} e.

(** The row a parameter bound to [WHERE key = ?] selects in a table whose
    [key] column is [text]: a number is compared as its text; [null] and
    [undefined] are both bound as [NULL], which equals no key; a boolean
    cannot be bound. *)
Definition row_of (k : key) : outcome (option string) :=
  match k with
  | KStr s => Return (Some s)
  | KNum n => Return (Some (pretty n))
  | KNull | KUndefined => Return None
  | KBool _ => Throw BindError
  end.

(** ** The class [Base] *)

Module KF.

Import Lodash (path).

Record Base : Type := {
  database : gmap string json;          (* the rows of table [name] *)
  map : option (gmap string value)      (* [this.map], when it exists *)
}.

Record BaseOptions : Type := { inMemory : option bool }.

(** A method body: it runs on the instance, returns or throws, and leaves
    the instance as it is at that moment. *)
Definition M (A : Type) : Type := Base → outcome A * Base.

#[global] Instance M_ret : MRet M := λ A a this, (Return a, this).
#[global] Instance M_bind : MBind M := λ A B f m this,
  match m this with
  | (Return a, this') => f a this'
  | (Throw e, this') => (Throw e, this')
  end.
Definition throw {A : Type} (e : exn) : M A := λ this, (Throw e, this).

(** [key.toString()] under [typeof key === 'number']: the decimal numeral,
    which is what [Number.prototype.toString] gives from
    [-9007199254740991] to [9007199254740991]. *)
Definition toString (k : key) : key :=
  match k with
  | KNum n => KStr (pretty n)
  | _ => k
  end.

(** [this.map.get(key)]: the keys of the map are strings. *)
Definition Map_get (m : gmap string value) (k : key) : value :=
  match k with
  | KStr s => default VUndefined (m !! s)
  | _ => VUndefined
  end.

(** [this.map?.set(key, value)]. *)
Definition Map_set (s : string) (v : value) : M unit := λ this,
  (Return (), {| database := database this; map := insert s v <$> map this |}).

(** [this.map?.delete(key)]. *)
Definition Map_delete (k : key) : M unit := λ this,
  (Return (),
   {| database := database this;
      map := match k with
             | KStr s => base.delete s <$> map this
             | _ => map this
             end |}).

(** [this.map?.clear()]. *)
Definition Map_clear : M unit := λ this,
  (Return (), {| database := database this; map := (λ _, ∅) <$> map this |}).

(** [SELECT * FROM name WHERE key = ?] with [.get(key)?.value]. *)
Definition SELECT_value (k : key) : M (option json) := λ this,
  match row_of k with
  | Return r => (Return (r ≫= λ s, database this !! s), this)
  | Throw e => (Throw e, this)
  end.

(** What [JSON.parse] reads from the [value] column the binder fills with
    the result of [JSON.stringify]: the text when there is one; for
    [undefined] the binder writes [NULL], and [JSON.parse(null)] is
    [null]. *)
Definition column (text : option json) : json := default JNull text.

(** [INSERT OR REPLACE INTO name (key, value) VALUES (?, ?)] run on a
    string key and the result of [JSON.stringify]. *)
Definition INSERT_OR_REPLACE (s : string) (text : option json) : M unit := λ this,
  (Return (), {| database := <[s := column text]> (database this); map := map this |}).

(** [DELETE FROM name WHERE key = ?]. *)
Definition DELETE_row (k : key) : M unit := λ this,
  match row_of k with
  | Return (Some s) =>
      (Return (), {| database := base.delete s (database this); map := map this |})
  | Return None => (Return (), this)
  | Throw e => (Throw e, this)
  end.

(** [DELETE FROM name]. *)
Definition DELETE_all : M unit := λ this,
  (Return (), {| database := ∅; map := map this |}).

Definition fetchEverything : M unit := λ this,
  (Return (), {| database := database this; map := Some (JSON_parse <$> database this) |}).

(** The constructor, on a table that exists: [options?.inMemory !== false]. *)
Definition new (rows : gmap string json) (options : option BaseOptions) : Base :=
  let this := {| database := rows; map := None |} in
  match options ≫= inMemory with
  | Some false => this
  | _ => (fetchEverything this).2
  end.

Definition getValueObjectAtKey (k : key) : M value := λ this,
  match map this with
  | Some m => (Return (Map_get m k), this)
  | None =>
      (possibleValue ← SELECT_value k;
       mret (match possibleValue with
             | Some text => JSON_parse text
             | None => VUndefined
             end)) this
  end.

Definition get (k : key) (p : option path) : M value :=
  match k with
  | KNull | KUndefined => mret VNull
  | _ =>
      let k := toString k in
      valueObject ← getValueObjectAtKey k;
      match p with
      | Some p => mret (Lodash.get valueObject p)
      | None => mret valueObject
      end
  end.

(** The object lodash hands back, or the embedding's boundary. *)
Definition lodash (r : option value) : M value :=
  match r with
  | Some v => mret v
  | None => throw Unmodelled
  end.

Definition set (k : key) (v : value) (p : option path) : M unit :=
  match k with
  | KStr _ | KNum _ =>
      match toString k with
      | KStr s =>
          valueObject ← getValueObjectAtKey (KStr s);
          valueObject ← match p with
                        | Some p =>
                            let valueObject :=
                              if isNil valueObject then VObj [] else valueObject in
                            lodash (Lodash.set valueObject p v)
                        | None => mret v
                        end;
          INSERT_OR_REPLACE s (JSON_stringify valueObject);;
          Map_set s valueObject
      | _ => throw InvalidKey
      end
  | _ => throw InvalidKey
  end.

Definition ensure (k : key) (defaultValue : value) (p : option path) : M value :=
  if isNil defaultValue then throw MissingDefault
  else
    possibleValue ← get k p;
    if truthy possibleValue then mret possibleValue
    else
      match p with
      | Some p => set k defaultValue (Some p);; mret defaultValue
      | None => set k defaultValue None;; mret defaultValue
      end.

Definition delete (k : key) (p : option path) : M bool :=
  let k := toString k in
  data ← get k None;
  match p with
  | Some p =>
      let r := Lodash.unset data p in
      set k r.1 None;;
      mret r.2
  | None =>
      let hasDeletedSomething := truthy data in
      Map_delete k;;
      DELETE_row k;;
      mret hasDeletedSomething
  end.

Definition deleteAll : M unit :=
  DELETE_all;;
  Map_clear.

(** The keys, as a set: the order of the array is not represented. *)
Definition indices (this : Base) : gset string :=
  match map this with
  | Some m => dom m
  | None => dom (database this)
  end.

End KF.

(** ** The earlier JavaScript class

    [class Base extends Map] of the package's JavaScript sources: the
    instance is itself the [Map].  Its [get] and [set] and the branch of its
    [delete] that a path selects are embedded; that branch removes an array
    element with [splice]. *)

Module Legacy.

Import Lodash (path).

Record Base : Type := {
  db : gmap string json;          (* the rows of table [name] *)
  entries : gmap string value     (* the entries of the [Map] the instance is *)
}.

Definition M (A : Type) : Type := Base → outcome A * Base.

#[global] Instance M_ret : MRet M := λ A a this, (Return a, this).
#[global] Instance M_bind : MBind M := λ A B f m this,
  match m this with
  | (Return a, this') => f a this'
  | (Throw e, this') => (Throw e, this')
  end.
Definition throw {A : Type} (e : exn) : M A := λ this, (Throw e, this).

(** [key.toString()], for a key that is not nil. *)
Definition toString (k : key) : string :=
  match k with
  | KStr s => s
  | KNum n => pretty n
  | KBool true => "true"
  | KBool false => "false"
  | KNull => "null"
  | KUndefined => "undefined"
  end.

Definition isNil_key (k : key) : bool :=
  match k with KNull | KUndefined => true | _ => false end.

(** [super.get(key)]. *)
Definition super_get (s : string) : M value := λ this,
  (Return (default VUndefined (entries this !! s)), this).

(** [super.set(key, data)]. *)
Definition super_set (s : string) (v : value) : M unit := λ this,
  (Return (), {| db := db this; entries := <[s := v]> (entries this) |}).

(** [INSERT OR REPLACE INTO name (key, value) VALUES (?, ?)]. *)
Definition INSERT_OR_REPLACE (s : string) (text : option json) : M unit := λ this,
  (Return (), {| db := <[s := KF.column text]> (db this); entries := entries this |}).

Definition get (k : key) (p : option path) : M value :=
  if isNil_key k then mret VNull
  else
    let key := toString k in
    match p with
    | Some p => data ← super_get key; mret (Lodash.get data p)
    | None => data ← super_get key; mret data
    end.

Definition lodash (r : option value) : M value :=
  match r with
  | Some v => mret v
  | None => throw Unmodelled
  end.

Definition set (k : key) (val : value) (p : option path) : M unit :=
  match k with
  | KStr _ | KNum _ =>
      let key := toString k in
      data ← super_get key;
      data ← match p with
              | Some p =>
                  let data := if isNil data then VObj [] else data in
                  lodash (Lodash.set data p val)
              | None => mret val
              end;
      INSERT_OR_REPLACE key (JSON_stringify data);;
      super_set key data
  | _ => throw InvalidKey
  end.

(** [propValue.splice(last, 1)]: the array afterwards.  [last] is the
    popped accessor, [None] when the path was empty; an accessor that is
    not a canonical index is outside the embedding. *)
Definition splice (es : list value) (last : option string) : option (list value) :=
  match last with
  | None => Some (drop 1 es)
  | Some k =>
      match Lodash.reIsUint k with
      | Some n => Some (take (N.to_nat n) es ++ drop (S (N.to_nat n)) es)%list
      | None => None
      end
  end.

(** [delete(key, path)] when [path] is not nil. *)
Definition delete_path (k : key) (p : path) : M unit :=
  data ← get k None;
  let last := List.last (Some <$> p) None in
  let p := removelast p in
  let propValue := match p with [] => data | _ => Lodash.get data p end in
  propValue ← match propValue with
               | VArr es =>
                   match splice es last with
                   | Some es' => mret (VArr es')
                   | None => throw Unmodelled
                   end
               | VUndefined | VNull => throw TypeError
               | _ =>
                   let r := Lodash.delete_prop propValue (default "undefined" last) in
                   if r.2 then mret r.1 else throw TypeError
               end;
  data ← match p with
          | [] => mret propValue
          | _ => lodash (Lodash.set data p propValue)
          end;
  set k data None.

(** The text a template literal makes of [key] inside single quotes in
    [WHERE key = '${key}'] is the key of the row deleted when it neither
    closes the quotes nor ends the statement text; otherwise the statement
    is another one, outside the embedding. *)
Fixpoint plain_literal (s : string) : bool :=
  match s with
  | EmptyString => true
  | String c s' =>
      negb (Ascii.eqb c "'"%char) && negb (Ascii.eqb c "000"%char) && plain_literal s'
  end.

(** [DELETE FROM name WHERE key = '${key}'], the key spliced into the
    statement. *)
Definition DELETE_spliced (k : key) : M unit := λ this,
  if plain_literal (toString k)
  then (Return (), {| db := base.delete (toString k) (db this); entries := entries this |})
  else (Throw Unmodelled, this).

(** [super.delete(key)]: the key as it was passed; the keys of the [Map]
    are strings. *)
Definition super_delete (k : key) : M bool := λ this,
  match k with
  | KStr s =>
      (Return (bool_decide (is_Some (entries this !! s))),
       {| db := db this; entries := base.delete s (entries this) |})
  | _ => (Return false, this)
  end.

(** [delete(key, path)]; the method returns [this]. *)
Definition delete (k : key) (p : option path) : M unit :=
  match p with
  | Some p => delete_path k p
  | None =>
      super_delete k;;
      DELETE_spliced k
  end.

(** [ensure(key, defaultValue)], the call without a path. *)
Definition ensure_key (k : key) (defaultValue : value) : M value :=
  if isNil defaultValue then throw MissingDefault
  else
    x ← get k None;
    if truthy x then get k None
    else
      set k defaultValue None;;
      mret defaultValue.

(** [ensure(key, defaultValue, path)]; with a path it first calls itself
    without one, on an empty object. *)
Definition ensure (k : key) (defaultValue : value) (p : option path) : M value :=
  match p with
  | Some p =>
      if isNil defaultValue then throw MissingDefault
      else
        ensure_key k (VObj []);;
        x ← get k (Some p);
        if truthy x then get k (Some p)
        else
          set k defaultValue (Some p);;
          mret defaultValue
  | None => ensure_key k defaultValue
  end.

(** [deleteAll()]: [DELETE FROM name], then [super.clear()]. *)
Definition deleteAll : M unit := λ this,
  (Return (), {| db := ∅; entries := ∅ |}).

End Legacy.

(** ** The earlier TypeScript class

    [class Base extends Map] of the package's first TypeScript sources.  Its
    [set] calls [_.set] only on a value object that is null or undefined,
    and its [delete] without a path returns what [super.delete] returns. *)

Module Early.

Import Lodash (path).
Import Legacy (Base, M, db, entries).

(** [super.get(key)], the key as the method has it. *)
Definition super_get (k : key) : M value := λ this,
  (Return (match k with
           | KStr s => default VUndefined (entries this !! s)
           | _ => VUndefined
           end), this).

Definition get (k : key) (p : option path) : M value :=
  match k with
  | KNull | KUndefined => mret VNull
  | _ =>
      let k := KF.toString k in
      match p with
      | Some p => data ← super_get k; mret (Lodash.get data p)
      | None => super_get k
      end
  end.

Definition set (k : key) (v : value) (p : option path) : M unit :=
  match k with
  | KStr _ | KNum _ =>
      let key := Legacy.toString k in
      data ← super_get (KStr key);
      data ← match p with
              | Some p =>
                  if isNil data
                  then Legacy.lodash (Lodash.set data p v);; mret data
                  else mret data
              | None => mret v
              end;
      Legacy.INSERT_OR_REPLACE key (JSON_stringify data);;
      Legacy.super_set key data
  | _ => Legacy.throw InvalidKey
  end.

(** [ensure(key, defaultValue)], the call without a path. *)
Definition ensure_key (k : key) (defaultValue : value) : M value :=
  if isNil defaultValue then Legacy.throw MissingDefault
  else
    x ← get k None;
    if truthy x then get k None
    else
      y ← get k None;
      if truthy y then get k None
      else
        set k defaultValue None;;
        mret defaultValue.

(** [ensure(key, defaultValue, path)]; with a path it calls itself without
    one, on an empty object, before [set]. *)
Definition ensure (k : key) (defaultValue : value) (p : option path) : M value :=
  match p with
  | Some p =>
      if isNil defaultValue then Legacy.throw MissingDefault
      else
        x ← get k (Some p);
        if truthy x then get k (Some p)
        else
          ensure_key k (VObj []);;
          set k defaultValue (Some p);;
          mret defaultValue
  | None => ensure_key k defaultValue
  end.

Definition delete (k : key) (p : option path) : M bool :=
  match p with
  | Some p =>
      data ← get k None;
      let r := Lodash.unset data p in
      set k r.1 None;;
      mret r.2
  | None =>
      hasDeletedSomething ← Legacy.super_delete k;
      Legacy.DELETE_spliced k;;
      mret hasDeletedSomething
  end.

End Early.

Import KF.

(** ** Definitions for the statements *)

(** The string a [string | number] key is stored under. *)
Definition key_text (k : key) : option string :=
  match k with
  | KStr s => Some s
  | KNum n => Some (pretty n)
  | _ => None
  end.

(** A present non-container root: a number, a text or a boolean. *)
Definition scalar (j : json) : bool :=
  match j with
  | JBool _ | JNum _ | JFrac _ _ | JStr _ => true
  | _ => false
  end.

(** The two modes on given rows. *)
Definition mirrored (rows : gmap string json) : Base := new rows None.
Definition direct (rows : gmap string json) : Base :=
  new rows (Some {| inMemory := Some false |}).

(** What the instance holds for a row key: the row of the table and, when
    there is a mirror, its entry. *)
Definition stored (this : Base) (s : string) : option json := database this !! s.
Definition mirror (this : Base) (s : string) : option value :=
  match map this with
  | Some m => m !! s
  | None => None
  end.

(** The instance holds [j] under [s], in the table and in the mirror if
    there is one. *)
Definition holds (this : Base) (s : string) (j : json) : Prop :=
  database this !! s = Some j ∧
  ∀ m, map this = Some m → m !! s = Some (JSON_parse j).

(** The instance holds nothing under [s]. *)
Definition vacant (this : Base) (s : string) : Prop :=
  database this !! s = None ∧ ∀ m, map this = Some m → m !! s = None.

(** Unfolds a method call down to the table and mirror operations. *)
Ltac method :=
  cbv [set get ensure delete deleteAll getValueObjectAtKey lodash throw
       SELECT_value INSERT_OR_REPLACE DELETE_row DELETE_all
       Map_set Map_delete Map_clear Map_get row_of
       mbind mret M_bind M_ret] in *.

(** The value object of a row key: the mirror's entry when there is a
    mirror, the parsed row otherwise. *)
Definition read (this : Base) (s : string) : value :=
  match map this with
  | Some m => default VUndefined (m !! s)
  | None =>
      match database this !! s with
      | Some text => JSON_parse text
      | None => VUndefined
      end
  end.

(** The instance after the two writes that end [set]. *)
Definition written (this : Base) (s : string) (v : value) (d : json) : Base :=
  {| database := <[s := d]> (database this); map := insert s v <$> map this |}.

(** The instance after the two deletions that end [delete]. *)
Definition erased (this : Base) (s : string) : Base :=
  {| database := base.delete s (database this); map := base.delete s <$> map this |}.

(** The value object [set] is about to store. *)
Definition to_store (this : Base) (s : string) (v : value) (p : option Lodash.path) :
    option value :=
  match p with
  | Some p =>
      Lodash.set (if isNil (read this s) then VObj [] else read this s) p v
  | None => Some v
  end.

(** [ensure(K, 0)] on a fresh key, [ensure(K, 5)], then [get(K)]. *)
Definition ensure_twice : M (value * value * value) :=
  a ← ensure (KStr "k") (VNum 0) None;
  b ← ensure (KStr "k") (VNum 5) None;
  c ← get (KStr "k") None;
  mret (a, b, c).

(** The concrete scenario of the specification. *)
Definition tags_scenario : M (value * value) :=
  set (KStr "user:1") (VObj [("name", VStr "Ann"); ("score", VNum 0)]) None;;
  set (KStr "user:1") (VNum 5) (Some ["score"]);;
  set (KStr "user:1") (VStr "x") (Some ["tags"; "0"]);;
  before ← get (KStr "user:1") (Some ["tags"]);
  delete (KStr "user:1") (Some ["tags"; "0"]);;
  after ← get (KStr "user:1") (Some ["tags"]);
  mret (before, after).

(** [delete(K, 'b')] where only 'a' exists, then [delete(K, 'a')] twice. *)
Definition delete_thrice : M (bool * bool * bool) :=
  set (KStr "k") (VObj [("a", VNum 1)]) None;;
  b ← delete (KStr "k") (Some ["b"]);
  a1 ← delete (KStr "k") (Some ["a"]);
  a2 ← delete (KStr "k") (Some ["a"]);
  mret (b, a1, a2).

(** [set(K, 0)], [delete(K)], then [get(K)]. *)
Definition delete_zero : M (bool * value) :=
  set (KStr "k") (VNum 0) None;;
  r ← delete (KStr "k") None;
  v ← get (KStr "k") None;
  mret (r, v).

(** [set(K, 5)], [set(K, 'x', 'a')], then [get(K, 'a')] and [get(K)]. *)
Definition set_under_scalar : M (value * value) :=
  set (KStr "k") (VNum 5) None;;
  set (KStr "k") (VStr "x") (Some ["a"]);;
  a ← get (KStr "k") (Some ["a"]);
  whole ← get (KStr "k") None;
  mret (a, whole).

(** The agreement the specification asks for: the mirror holds, under
    every key of the table, the Value the row spells, and holds no other
    key. *)
Definition mirror_agrees (this : Base) : Prop :=
  ∀ m, map this = Some m → ∀ s, m !! s = JSON_parse <$> database this !! s.

(** What the code maintains: every row is what [set] writes for the
    mirror's entry, the document of [JSON.stringify] (see [column]), and
    the mirror has no entry without a row. *)
Definition mirror_written (this : Base) : Prop :=
  ∀ m, map this = Some m →
  ∀ s, database this !! s = (λ v, column (JSON_stringify v)) <$> m !! s.

(** [set('k', 'x', 'tags.1')] on an empty mirrored store. *)
Definition sparse_set : Base :=
  (set (KStr "k") (VStr "x") (Some ["tags"; "1"]) (mirrored ∅)).2.

Inductive call : Type :=
  | Get (k : key) (p : option Lodash.path)
  | Set_ (k : key) (v : value) (p : option Lodash.path)
  | Ensure (k : key) (defaultValue : value) (p : option Lodash.path)
  | Delete (k : key) (p : option Lodash.path)
  | DeleteAll
  | Indices.

Inductive answer : Type :=
  | AValue (v : value)
  | ABool (b : bool)
  | AKeys (ks : gset string)
  | AVoid.

Definition perform (c : call) : M answer :=
  match c with
  | Get k p => v ← get k p; mret (AValue v)
  | Set_ k v p => set k v p;; mret AVoid
  | Ensure k d p => v ← ensure k d p; mret (AValue v)
  | Delete k p => b ← delete k p; mret (ABool b)
  | DeleteAll => deleteAll;; mret AVoid
  | Indices => λ this, (Return (AKeys (indices this)), this)
  end.

(** The caller makes the calls one after the other and records what each
    returns or throws. *)
Fixpoint run (cs : list call) (this : Base) : list (outcome answer) * Base :=
  match cs with
  | [] => ([], this)
  | c :: cs' =>
      let r := perform c this in
      let rs := run cs' r.2 in
      (r.1 :: rs.1, rs.2)
  end.

(** Observable equivalence of the two modes on a sequence of calls, as the
    specification words it: the same answers, and the same table at the
    end. *)
Definition observably_equivalent (rows : gmap string json) (cs : list call) : Prop :=
  (run cs (mirrored rows)).1 = (run cs (direct rows)).1 ∧
  database (run cs (mirrored rows)).2 = database (run cs (direct rows)).2.

(** [set('k', 'x', 'tags.1')], then [get('k', 'tags.0')]. *)
Definition sparse_trace : list call :=
  [Set_ (KStr "k") (VStr "x") (Some ["tags"; "1"]); Get (KStr "k") (Some ["tags"; "0"])].

Definition legacy_empty : Legacy.Base := {| Legacy.db := ∅; Legacy.entries := ∅ |}.

(** The concrete scenario, on the earlier class. *)
Definition legacy_tags_scenario : Legacy.M (value * value * value) :=
  Legacy.set (KStr "user:1") (VObj [("name", VStr "Ann"); ("score", VNum 0)]) None;;
  Legacy.set (KStr "user:1") (VNum 5) (Some ["score"]);;
  Legacy.set (KStr "user:1") (VStr "x") (Some ["tags"; "0"]);;
  before ← Legacy.get (KStr "user:1") (Some ["tags"]);
  Legacy.delete_path (KStr "user:1") ["tags"; "0"];;
  after ← Legacy.get (KStr "user:1") (Some ["tags"]);
  whole ← Legacy.get (KStr "user:1") None;
  mret (before, after, whole).

Definition safe_path (p : Lodash.path) : Prop :=
  Forall (λ k, Lodash.unsafe_key k = false) p.

(** [q] addresses a sibling of the location [p] addresses in [nested]: the
    two paths part at a mapping, above which [p] runs through containers. *)
Fixpoint apart (nested : value) (p q : Lodash.path) : Prop :=
  match p, q with
  | k :: p', k' :: q' =>
      if String.eqb k k'
      then Lodash.isObject (Lodash.prop nested k) = true ∧ apart (Lodash.prop nested k) p' q'
      else ∃ ps, nested = VObj ps
  | _, _ => False
  end.

Definition parse_members (ms : list (string * json)) : list (string * value) :=
  List.map (λ kv, (kv.1, JSON_parse kv.2)) ms.

(** The root [_.set] works on. *)
Definition root_for_set (this : Base) (s : string) : value :=
  if isNil (read this s) then VObj [] else read this s.

(** A call on a whole Entry: a text or numeric key, no path, a Value. *)
Definition whole_value_call (c : call) : Prop :=
  match c with
  | Get k None | Delete k None => is_Some (key_text k)
  | Set_ k v None | Ensure k v None => is_Some (key_text k) ∧ ∃ j, v = JSON_parse j
  | DeleteAll | Indices => True
  | _ => False
  end.

(** A mirrored and a direct instance over the same table, the mirror being
    the parsed table. *)
Definition paired (tm td : Base) : Prop :=
  map tm = Some (JSON_parse <$> database tm) ∧ map td = None ∧ database td = database tm.

(** The instance a call on key [k] can leave: the one it found, or that one
    with the Entry of [k] written or erased. *)
Definition touches (this this' : Base) (k : key) : Prop :=
  this' = this ∨
  ∃ s, key_text k = Some s ∧
       ((∃ vo d, this' = written this s vo d) ∨ this' = erased this s).

(** The instance of the earlier classes seen as a mirrored instance of the
    current one: the entries of the [Map] are the mirror. *)
Definition as_mirrored (L : Legacy.Base) : Base :=
  {| database := Legacy.db L; map := Some (Legacy.entries L) |}.

(** [path.length ? _get(data, path) : data]. *)
Definition at_path (data : value) (q : Lodash.path) : value :=
  match q with
  | [] => data
  | _ => Lodash.get data q
  end.

(** A numeric key that [toString] writes as its decimal numeral: a safe
    integer.  The other keys are not constrained. *)
Definition safe_key (k : key) : bool :=
  match k with
  | KNum n => Z.abs n <=? 9007199254740991
  | _ => true
  end.

(** A Value of the data model whose numbers are finite: a tree of null,
    booleans, finite numbers, texts, sequences and mappings, with no
    [undefined], no hole and no number that is not finite. *)
Fixpoint plain (v : value) : bool :=
  match v with
  | VUndefined | VNaN | VInfinity _ => false
  | VNull | VBool _ | VNum _ | VFrac _ _ | VStr _ => true
  | VArr l => forallb plain l
  | VObj l => forallb (λ kv, plain kv.2) l
  end.

(** The names of the members that the built-in prototypes define are made
    of letters and underscores only ([toString], [length],
    [__proto__], ...). *)
Definition letter (c : ascii) : bool :=
  let n := N_of_ascii c in
  ((65 <=? n) && (n <=? 90) || (97 <=? n) && (n <=? 122) || (n =? 95))%N.

Fixpoint letters (s : string) : bool :=
  match s with
  | EmptyString => true
  | String c s' => letter c && letters s'
  end.

(** What lodash takes for an index ([isIndex]) does address an element of
    an array. *)
Definition index_or_name (k : string) : bool :=
  match Lodash.array_index k with
  | Some _ => true
  | None => negb (Lodash.isIndex k)
  end.

(** An accessor that names data whatever it is applied to: it holds a
    character that is not a letter or an underscore, so that no built-in
    prototype has a member of that name. *)
Definition data_accessor (k : string) : bool := negb (letters k) && index_or_name k.

Definition data_path (p : Lodash.path) : Prop := Forall (λ k, data_accessor k = true) p.

(** The names of the members of [Object.prototype]. *)
Definition Object_prototype : list string :=
  ["constructor"; "__defineGetter__"; "__defineSetter__"; "hasOwnProperty";
   "__lookupGetter__"; "__lookupSetter__"; "isPrototypeOf"; "propertyIsEnumerable";
   "toString"; "valueOf"; "__proto__"; "toLocaleString"].

(** An accessor that, applied to an object, names an own property or
    nothing, and that [_.set] does not refuse. *)
Definition own_accessor (k : string) : bool :=
  negb (Lodash.unsafe_key k) && negb (existsb (String.eqb k) Object_prototype) &&
  index_or_name k.

Definition own_path (p : Lodash.path) : Prop := Forall (λ k, own_accessor k = true) p.

(** Along [p], every sequence met in [nested] is addressed by an index of
    an element. *)
Fixpoint indexed (nested : value) (p : Lodash.path) : bool :=
  match p with
  | [] => true
  | k :: p' =>
      match nested, Lodash.array_index k with
      | VArr _, None => false
      | _, _ => indexed (Lodash.prop nested k) p'
      end
  end.

(** An instance in which no object is in two places: one without the
    mirror, whose value objects are parsed afresh at every call, or one
    that the constructor has just made, whose mirror holds the parsed
    rows. *)
Definition unshared (this : Base) : Prop :=
  map this = None ∨ ∃ rows options, this = new rows options.

(** A call that changes no object in place: any [get], and the other
    calls without a path. *)
Definition whole_call (c : call) : Prop :=
  match c with
  | Set_ _ _ (Some _) | Ensure _ _ (Some _) | Delete _ (Some _) => False
  | _ => True
  end.

(** [set(K, NaN)], then [get(K)]. *)
Definition set_get_NaN : M value :=
  set (KStr "k") VNaN None;;
  get (KStr "k") None.

(** * Properties *)

(** ** The JSON codec *)

Lemma JSON_stringify_parse (j : json) : JSON_stringify (JSON_parse j) = Some j.
Proof.
  induction j as [| | | | |l IH|l IH] using json_nested_ind; simpl; try reflexivity.
  - f_equal. f_equal. induction IH as [|x l Hx _ IHl]; simpl; [reflexivity|].
    rewrite Hx. simpl. by rewrite IHl.
  - f_equal. f_equal. induction IH as [|[k x] l Hx _ IHl]; simpl; [reflexivity|].
    simpl in Hx. rewrite Hx. by rewrite IHl.
Qed.

Lemma JSON_parse_defined (j : json) : JSON_parse j ≠ VUndefined.
Proof. by destruct j. Qed.

Lemma key_text_toString (k : key) (s : string) :
  key_text k = Some s → toString k = KStr s.
Proof. destruct k; simpl; congruence. Qed.

Lemma base_eq (this : Base) (d : gmap string json) (m : option (gmap string value)) :
  database this = d → map this = m → {| database := d; map := m |} = this.
Proof. destruct this; simpl; congruence. Qed.

Lemma bind_Return {A B : Type} (m : M A) (f : A → M B) (this this' : Base) (a : A) :
  m this = (Return a, this') → (m ≫= f) this = f a this'.
Proof. intros H. unfold mbind, M_bind. by rewrite H. Qed.

Lemma bind_Throw {A B : Type} (m : M A) (f : A → M B) (this this' : Base) (e : exn) :
  m this = (Throw e, this') → (m ≫= f) this = (Throw e, this').
Proof. intros H. unfold mbind, M_bind. by rewrite H. Qed.

(** ** The methods on a text key, as functions of what the instance holds *)

Lemma getValueObjectAtKey_read (this : Base) (s : string) :
  getValueObjectAtKey (KStr s) this = (Return (read this s), this).
Proof.
  method. unfold read. destruct (map this); [done|].
  simpl. by destruct (database this !! s).
Qed.

Lemma get_read (this : Base) (k : key) (s : string) (p : option Lodash.path) :
  key_text k = Some s →
  get k p this =
    (Return (match p with Some p => Lodash.get (read this s) p | None => read this s end),
     this).
Proof.
  intros Hk. unfold get. rewrite (key_text_toString _ _ Hk).
  destruct k; try discriminate.
  all: rewrite (bind_Return _ _ _ _ _ (getValueObjectAtKey_read this s)); by destruct p.
Qed.

Lemma set_read (this : Base) (k : key) (s : string) (v : value) (p : option Lodash.path) :
  key_text k = Some s →
  set k v p this =
    match to_store this s v p with
    | None => (Throw Unmodelled, this)
    | Some vo => (Return (), written this s vo (column (JSON_stringify vo)))
    end.
Proof.
  intros Hk. unfold set. rewrite (key_text_toString _ _ Hk).
  assert (Hs : match k with KStr _ | KNum _ => True | _ => False end) by (by destruct k).
  destruct k; try done.
  all: rewrite (bind_Return _ _ _ _ _ (getValueObjectAtKey_read this s)).
  all: unfold to_store; destruct p as [p|]; simpl.
  all: try (destruct (Lodash.set _ p v) as [vo|]; simpl; [|done]).
  all: reflexivity.
Qed.

Lemma set_invalid (this : Base) (k : key) (v : value) (p : option Lodash.path) :
  key_text k = None → set k v p this = (Throw InvalidKey, this).
Proof. by destruct k. Qed.

Lemma delete_read (this : Base) (k : key) (s : string) :
  key_text k = Some s →
  delete k None this = (Return (truthy (read this s)), erased this s).
Proof.
  intros Hk. unfold delete. rewrite (key_text_toString _ _ Hk).
  rewrite (bind_Return _ _ _ _ _ (get_read this (KStr s) s None eq_refl)).
  reflexivity.
Qed.

Lemma delete_path_read (this : Base) (k : key) (s : string) (p : Lodash.path) :
  key_text k = Some s →
  delete k (Some p) this =
    (Return (Lodash.unset (read this s) p).2,
     written this s (Lodash.unset (read this s) p).1
       (column (JSON_stringify (Lodash.unset (read this s) p).1))).
Proof.
  intros Hk. unfold delete. rewrite (key_text_toString _ _ Hk).
  rewrite (bind_Return _ _ _ _ _ (get_read this (KStr s) s None eq_refl)).
  unfold mbind, M_bind. by rewrite (set_read _ (KStr s) s _ None eq_refl).
Qed.

Lemma read_written (this : Base) (s : string) (v : value) (d : json) :
  read (written this s v d) s = match map this with Some _ => v | None => JSON_parse d end.
Proof.
  unfold read, written. destruct (map this); simpl; by rewrite lookup_insert_eq.
Qed.

Lemma read_erased (this : Base) (s : string) : read (erased this s) s = VUndefined.
Proof.
  unfold read, erased. destruct (map this); simpl; by rewrite lookup_delete_eq.
Qed.

Lemma read_holds (this : Base) (s : string) (j : json) :
  holds this s j → read this s = JSON_parse j.
Proof.
  intros [Hd Hm]. unfold read. destruct (map this) as [m|] eqn:E.
  - by rewrite (Hm m eq_refl).
  - by rewrite Hd.
Qed.

Lemma read_vacant (this : Base) (s : string) : vacant this s → read this s = VUndefined.
Proof.
  intros [Hd Hm]. unfold read. destruct (map this) as [m|] eqn:E.
  - by rewrite (Hm m eq_refl).
  - by rewrite Hd.
Qed.

Lemma written_holds (this : Base) (s : string) (j : json) :
  holds this s j → written this s (JSON_parse j) j = this.
Proof.
  intros [Hd Hm]. unfold written. apply base_eq.
  - symmetry. by apply insert_id.
  - destruct (map this) as [m|] eqn:E; simpl; [|done].
    f_equal. symmetry. apply insert_id. by apply Hm.
Qed.

Lemma isObject_not_nil (v : value) : Lodash.isObject v = true → isNil v = false.
Proof. by destruct v. Qed.

Lemma stringify_defined (v : value) : v ≠ VUndefined → ∃ d, JSON_stringify v = Some d.
Proof. destruct v; simpl; eauto. done. Qed.

Lemma stringify_object (v : value) :
  Lodash.isObject v = true → ∃ d, JSON_stringify v = Some d.
Proof. intros H. apply stringify_defined. by destruct v. Qed.

Lemma column_defined (v : value) (d : json) :
  JSON_stringify v = Some d → column (JSON_stringify v) = d.
Proof. by intros ->. Qed.

(** [_.set] hands back the container it was given, changed in place. *)
Lemma set_isObject (o r : value) (p : Lodash.path) (x : value) :
  Lodash.isObject o = true → Lodash.set o p x = Some r → Lodash.isObject r = true.
Proof.
  intros Ho. unfold Lodash.set, Lodash.baseSet. rewrite (isObject_not_nil _ Ho), Ho.
  destruct p as [|k p]; simpl; [by intros [= <-]|].
  destruct (Lodash.unsafe_key k); [by intros [= <-]|].
  assert (Ha : ∀ c, Lodash.assignValue o k c = Some r → Lodash.isObject r = true).
  { intros c. destruct o; try discriminate; simpl.
    - destruct (Lodash.array_index k); [by intros [= <-]|discriminate].
    - by intros [= <-]. }
  destruct p as [|next p']; [apply Ha|].
  destruct (Lodash.baseSet_loop _ _ _); [apply Ha|discriminate].
Qed.

(** ** Whole-value round trip *)

(** A Value with finite numbers is the reading of a JSON document. *)
Lemma plain_parse (v : value) : plain v = true → ∃ j, v = JSON_parse j.
Proof.
  induction v as [| | | | | | | |l IH|l IH] using value_nested_ind; try discriminate.
  - by exists JNull.
  - by exists (JBool b).
  - by exists (JNum n).
  - by exists (JFrac m e).
  - by exists (JStr s).
  - intros Hl. assert (∃ js, l = List.map JSON_parse js) as [js ->]; [|by exists (JArr js)].
    simpl in Hl. induction IH as [|x l Hx _ IHl]; [by exists []|].
    simpl in Hl. apply andb_true_iff in Hl as [H1 H2].
    destruct (Hx H1) as [j ->], (IHl H2) as [js ->]. by exists (j :: js).
  - intros Hl.
    assert (∃ ms, l = List.map (λ kv, (kv.1, JSON_parse kv.2)) ms) as [ms ->];
      [|by exists (JObj ms)].
    simpl in Hl. induction IH as [|[k x] l Hx _ IHl]; [by exists []|].
    simpl in Hl, Hx. apply andb_true_iff in Hl as [H1 H2].
    destruct (Hx H1) as [j ->], (IHl H2) as [ms ->]. by exists ((k, j) :: ms).
Qed.

(** It is written to its row and read back from it unchanged. *)
Lemma plain_stringify (v : value) :
  plain v = true → ∃ d, JSON_stringify v = Some d ∧ JSON_parse d = v.
Proof.
  intros Hv. destruct (plain_parse v Hv) as [j ->]. exists j.
  by rewrite JSON_stringify_parse.
Qed.

Lemma set_whole_plain (this : Base) (k : key) (s : string) (v : value) :
  key_text k = Some s → plain v = true →
  ∃ d, JSON_stringify v = Some d ∧ JSON_parse d = v ∧
       set k v None this = (Return (), written this s v d).
Proof.
  intros Hk Hv. destruct (plain_stringify v Hv) as (d & Hd & Hp). exists d.
  split; [done|]. split; [done|]. rewrite (set_read _ _ _ _ _ Hk). simpl. by rewrite Hd.
Qed.

(** C5, at the input that refutes it: without the mirror, [get(K)] after
    [set(K, NaN)] returns null, not the number that was stored; the row
    holds the text null, which is what [JSON.stringify] writes for a
    number that is not finite. *)
Lemma set_get_NaN_reads_null :
  (set_get_NaN (direct ∅)).1 = Return VNull ∧
  (set_get_NaN (direct ∅)).1 ≠ Return VNaN.
Proof. split; [by vm_compute|]. vm_compute. discriminate. Qed.

(** C5, amended: for every text or numeric key and every Value [V] whose
    numbers are finite (a tree of null, boolean, finite-number, text,
    sequence and mapping nodes), [set(K, V)] succeeds and a following
    [get(K)] returns [V]; [this] is any instance, with or without the
    mirror. *)
Theorem set_get_roundtrip_finite (this : Base) (k : key) (s : string) (V : value) :
  key_text k = Some s → plain V = true →
  ∃ this', set k V None this = (Return (), this') ∧
           get k None this' = (Return V, this').
Proof.
  intros Hk HV. destruct (set_whole_plain this k s V Hk HV) as (d & Hd & Hp & Hset).
  exists (written this s V d). split; [done|].
  rewrite (get_read _ _ _ _ Hk), read_written. destruct (map this); [done|].
  by rewrite Hp.
Qed.

Lemma set_get_roundtrip_finite_witness :
  ∃ this', set (KNum 7) (VObj [("name", VStr "Ann"); ("tags", VArr [VNull; VFrac 3 1])])
             None (direct ∅) = (Return (), this') ∧
           get (KNum 7) None this' =
             (Return (VObj [("name", VStr "Ann"); ("tags", VArr [VNull; VFrac 3 1])]), this').
Proof.
  apply (set_get_roundtrip_finite (direct ∅) (KNum 7) "7"); reflexivity.
Defined.

(** ** Errors come before any mutation *)

(** C9: [set] raises the invalid-key error exactly for a key that is neither
    text nor numeric, [ensure] raises the missing-default error exactly for
    a default that is null or undefined, and whenever either error is
    raised the table and the mirror are as they were before the call. *)
Theorem errors_before_mutation (this : Base) (k : key) (v d : value)
    (p : option Lodash.path) :
  (key_text k = None → set k v p this = (Throw InvalidKey, this)) ∧
  (isNil d = true → ensure k d p this = (Throw MissingDefault, this)) ∧
  (∀ this', set k v p this = (Throw InvalidKey, this') →
            this' = this ∧ key_text k = None) ∧
  (∀ this', ensure k d p this = (Throw MissingDefault, this') →
            this' = this ∧ isNil d = true).
Proof.
  split; [|split; [|split]].
  - apply set_invalid.
  - intros Hd. unfold ensure. by rewrite Hd.
  - intros this' H. destruct (key_text k) as [s|] eqn:Hk.
    + exfalso. rewrite (set_read _ _ _ _ _ Hk) in H.
      destruct (to_store this s v p) as [vo|]; congruence.
    + rewrite (set_invalid _ _ _ _ Hk) in H. split; congruence.
  - intros this' H. unfold ensure in H. destruct (isNil d) eqn:Hd.
    + split; [|done]. unfold throw in H. congruence.
    + exfalso. destruct (key_text k) as [s|] eqn:Hk.
      * rewrite (bind_Return _ _ _ _ _ (get_read this k s p Hk)) in H.
        destruct (truthy _); [discriminate H|].
        assert (Hset : ∀ po, (set k d po ≫= λ _, mret d) this ≠ (Throw MissingDefault, this')).
        { intros po. unfold mbind, M_bind. rewrite (set_read _ _ _ _ _ Hk).
          destruct (to_store this s d po) as [vo|]; [discriminate|congruence]. }
        destruct p; by apply Hset in H.
      * destruct (get k p this) as [[r|e] this1] eqn:Hget.
        -- assert (this1 = this) as ->.
           { revert Hget. destruct k; try discriminate; method; simpl.
             all: try congruence.
             all: destruct (map this); simpl; try congruence.
             all: destruct p; congruence. }
           rewrite (bind_Return _ _ _ _ _ Hget) in H.
           destruct (truthy r); [discriminate H|].
           assert (Hset : ∀ po, (set k d po ≫= λ _, mret d) this ≠ (Throw MissingDefault, this')).
           { intros po. unfold mbind, M_bind. rewrite (set_invalid _ _ _ _ Hk). congruence. }
           destruct p; by apply Hset in H.
        -- rewrite (bind_Throw _ _ _ _ _ Hget) in H.
           revert Hget. destruct k; try discriminate; method; simpl.
           all: try congruence.
           all: destruct (map this); simpl; try congruence.
           all: destruct p; congruence.
Qed.

Lemma errors_before_mutation_witness :
  set KNull (VNum 1) None (mirrored {["a" := JNum 1]}) =
    (Throw InvalidKey, mirrored {["a" := JNum 1]}) ∧
  ensure (KStr "a") VNull (Some ["x"]) (mirrored {["a" := JNum 1]}) =
    (Throw MissingDefault, mirrored {["a" := JNum 1]}).
Proof.
  split.
  - apply (errors_before_mutation (mirrored {["a" := JNum 1]}) KNull (VNum 1) VNull None).
    reflexivity.
  - apply (errors_before_mutation (mirrored {["a" := JNum 1]}) (KStr "a") (VNum 1) VNull
             (Some ["x"])).
    reflexivity.
Defined.

(** ** [set] with a path on a scalar root *)

(** C10: when the key holds a number, a text or a boolean, [set(K, L, P)]
    returns normally and leaves the table and the mirror exactly as they
    were, whatever the path and the leaf; it is only when the key holds
    nothing that the path write starts from a fresh empty object. *)
Theorem set_path_keeps_scalar_root (this : Base) (k : key) (s : string) (r : json)
    (p : Lodash.path) (L : value) :
  key_text k = Some s →
  (scalar r = true → holds this s r →
     set k L (Some p) this = (Return (), this) ∧
     get k None this = (Return (JSON_parse r), this)) ∧
  (vacant this s →
     set k L (Some p) this =
       match Lodash.set (VObj []) p L with
       | None => (Throw Unmodelled, this)
       | Some vo =>
           match JSON_stringify vo with
           | None => (Throw BindError, this)
           | Some d => (Return (), written this s vo d)
           end
       end).
Proof.
  intros Hk. split.
  - intros Hr Hh. rewrite (get_read _ _ _ _ Hk), (set_read _ _ _ _ _ Hk).
    unfold to_store. rewrite (read_holds _ _ _ Hh). split; [|done].
    pose proof (written_holds _ _ _ Hh) as Hw.
    destruct r; try discriminate; simpl in *; by rewrite Hw.
  - intros Hv. rewrite (set_read _ _ _ _ _ Hk). unfold to_store.
    rewrite (read_vacant _ _ Hv). simpl.
    destruct (Lodash.set (VObj []) p L) as [vo|] eqn:E; [|done].
    destruct (stringify_object vo (set_isObject (VObj []) vo p L eq_refl E)) as [d Hd].
    by rewrite Hd.
Qed.

Lemma set_path_keeps_scalar_root_witness :
  set (KStr "n") (VStr "x") (Some ["a"; "0"]) (mirrored {["n" := JNum 5]}) =
    (Return (), mirrored {["n" := JNum 5]}) ∧
  set (KNum 3) (VStr "x") (Some ["a"]) (direct {["3" := JStr "abc"]}) =
    (Return (), direct {["3" := JStr "abc"]}).
Proof.
  split.
  - apply (set_path_keeps_scalar_root (mirrored {["n" := JNum 5]}) (KStr "n") "n" (JNum 5));
      [reflexivity|reflexivity|].
    split; [reflexivity|]. intros m Hm. injection Hm as <-. reflexivity.
  - apply (set_path_keeps_scalar_root (direct {["3" := JStr "abc"]}) (KNum 3) "3" (JStr "abc"));
      [reflexivity|reflexivity|].
    split; [reflexivity|]. intros m Hm. discriminate Hm.
Defined.

(** ** [ensure] *)

Lemma ensure_read (this : Base) (k : key) (s : string) (d : value) (p : option Lodash.path) :
  key_text k = Some s → isNil d = false →
  ensure k d p this =
    let possibleValue :=
      match p with Some p => Lodash.get (read this s) p | None => read this s end in
    if truthy possibleValue then (Return possibleValue, this)
    else (set k d p ≫= λ _, mret d) this.
Proof.
  intros Hk Hd. unfold ensure. rewrite Hd.
  rewrite (bind_Return _ _ _ _ _ (get_read this k s p Hk)). simpl.
  destruct (truthy _); [done|]. by destruct p.
Qed.

(** What [ensure] keeps: a value that is already there and is truthy is
    returned as it is, and neither the table nor the mirror is written. *)
Lemma ensure_keeps_truthy (this : Base) (k : key) (s : string) (d x : value)
    (p : option Lodash.path) :
  key_text k = Some s → isNil d = false →
  get k p this = (Return x, this) → truthy x = true →
  ensure k d p this = (Return x, this).
Proof.
  intros Hk Hd Hget Hx. rewrite (ensure_read _ _ _ _ _ Hk Hd). simpl.
  rewrite (get_read _ _ _ _ Hk) in Hget. injection Hget as ->. by rewrite Hx.
Qed.


(** C1, at the failing input: after [ensure(K, 0)] has stored 0 under a
    fresh key, [ensure(K, 5)] does not return the stored 0: it returns 5 and
    writes 5 over it, with and without the mirror. *)
Theorem ensure_overwrites_falsy_value :
  (ensure_twice (mirrored ∅)).1 = Return (VNum 0, VNum 5, VNum 5) ∧
  (ensure_twice (direct ∅)).1 = Return (VNum 0, VNum 5, VNum 5).
Proof. split; vm_compute; reflexivity. Qed.

(** ** [delete] with a path *)

Lemma delete_prop_keeps_length (es : list value) (k : string) (es' : list value) :
  (Lodash.delete_prop (VArr es) k).1 = VArr es' → length es' = length es.
Proof.
  unfold Lodash.delete_prop. destruct (Lodash.array_index k); simpl.
  - intros [= <-]. apply length_insert.
  - by intros [= <-].
Qed.

Lemma delete_prop_object (ps : list (string * value)) (k : string) :
  (Lodash.delete_prop (VObj ps) k).2 = true.
Proof. reflexivity. Qed.

(** C2, at the failing input: after [set('user:1', 'x', 'tags.0')] the tags
    are ['x'], and [delete('user:1', 'tags.0')] does not splice: the array
    keeps its length, with a hole where 'x' was (read back as [null] from
    the table). *)
Theorem delete_index_leaves_hole :
  (tags_scenario (mirrored ∅)).1 = Return (VArr [VStr "x"], VArr [VUndefined]) ∧
  (tags_scenario (direct ∅)).1 = Return (VArr [VStr "x"], VArr [VNull]).
Proof. split; vm_compute; reflexivity. Qed.

(** C3, at the failing input: on a key holding {a: 1}, [delete(K, 'b')]
    returns true although no accessor 'b' existed, and the second
    [delete(K, 'a')] returns true as the first did. *)
Theorem delete_path_returns_true_when_absent :
  (delete_thrice (mirrored ∅)).1 = Return (true, true, true) ∧
  (delete_thrice (direct ∅)).1 = Return (true, true, true).
Proof. split; vm_compute; reflexivity. Qed.

(** On a key that holds an object, [delete] with a one-accessor path
    returns true whether or not the accessor exists. *)
Lemma delete_path_object_true (this : Base) (k : key) (s a : string)
    (ms : list (string * json)) :
  key_text k = Some s → holds this s (JObj ms) →
  ∃ this', delete k (Some [a]) this = (Return true, this').
Proof.
  intros Hk Hh. rewrite (delete_path_read _ _ _ _ Hk), (read_holds _ _ _ Hh).
  simpl. eauto.
Qed.

(** ** [delete] without a path *)

(** C4, at the failing input: [delete(K)] on a key whose Entry holds 0
    removes the Entry (the following [get(K)] is undefined) but returns
    false, with and without the mirror. *)
Theorem delete_entry_false_on_falsy_value :
  (delete_zero (mirrored ∅)).1 = Return (false, VUndefined) ∧
  (delete_zero (direct ∅)).1 = Return (false, VUndefined).
Proof. split; vm_compute; reflexivity. Qed.

(** What [delete(K)] does in general: the Entry leaves the table and the
    mirror, a following [get(K)] is undefined, and the result is the
    truthiness of the value that was held. *)
Lemma delete_entry (this : Base) (k : key) (s : string) :
  key_text k = Some s →
  delete k None this = (Return (truthy (read this s)), erased this s) ∧
  stored (erased this s) s = None ∧
  mirror (erased this s) s = None ∧
  get k None (erased this s) = (Return VUndefined, erased this s).
Proof.
  intros Hk. split; [by apply delete_read|]. split; [|split].
  - unfold stored, erased. simpl. apply lookup_delete_eq.
  - unfold mirror, erased. simpl. destruct (map this); simpl; [|done].
    apply lookup_delete_eq.
  - by rewrite (get_read _ _ _ _ Hk), read_erased.
Qed.

Lemma delete_nonexistent (this : Base) (k : key) (s : string) :
  key_text k = Some s → vacant this s →
  ∃ this', delete k None this = (Return false, this').
Proof.
  intros Hk Hv. rewrite (delete_read _ _ _ Hk), (read_vacant _ _ Hv). eauto.
Qed.

(** ** [set] with a path, then [get] *)

(** C6, at the failing input: on a key that holds 5, [set(K, 'x', 'a')]
    followed by [get(K, 'a')] returns undefined, not 'x', and [get(K)] is
    still 5. *)
Theorem set_path_lost_under_scalar_root :
  (set_under_scalar (mirrored ∅)).1 = Return (VUndefined, VNum 5) ∧
  (set_under_scalar (direct ∅)).1 = Return (VUndefined, VNum 5).
Proof. split; vm_compute; reflexivity. Qed.

(** ** The mirror and the table *)

Lemma database_new (rows : gmap string json) (options : option BaseOptions) :
  database (new rows options) = rows.
Proof. unfold new. by destruct (options ≫= inMemory) as [[|]|]. Qed.

Lemma new_mirror_agrees (rows : gmap string json) (options : option BaseOptions) :
  mirror_agrees (new rows options).
Proof.
  intros m Hm s. rewrite database_new. unfold new in Hm.
  destruct (options ≫= inMemory) as [[|]|]; simpl in Hm; try discriminate.
  all: injection Hm as <-; by rewrite lookup_fmap.
Qed.

Lemma mirror_agrees_written (this : Base) : mirror_agrees this → mirror_written this.
Proof.
  intros H m Hm s. rewrite (H m Hm s).
  destruct (database this !! s) as [j|]; simpl; [|done].
  by rewrite JSON_stringify_parse.
Qed.

(** C7, at the failing input: the empty mirrored store agrees with its
    table, and after the completed [set('k', 'x', 'tags.1')] it does not:
    the mirror holds an array with a hole where the row spells [null]. *)
Theorem mirror_differs_after_sparse_set :
  mirror_agrees (mirrored ∅) ∧
  mirror sparse_set "k" = Some (VObj [("tags", VArr [VUndefined; VStr "x"])]) ∧
  stored sparse_set "k" = Some (JObj [("tags", JArr [JNull; JStr "x"])]) ∧
  ¬ mirror_agrees sparse_set.
Proof.
  split; [apply new_mirror_agrees|]. split; [by vm_compute|]. split; [by vm_compute|].
  intros H. specialize (H _ eq_refl "k"). vm_compute in H. discriminate H.
Qed.

(** ** Sequences of calls *)

(** C8, at the failing input: on the empty store the two calls of
    [sparse_trace] answer differently in the two modes: the [get] returns
    undefined from the mirror and [null] from the table. *)
Theorem modes_differ_on_sparse_array :
  (run sparse_trace (mirrored ∅)).1 = [Return AVoid; Return (AValue VUndefined)] ∧
  (run sparse_trace (direct ∅)).1 = [Return AVoid; Return (AValue VNull)] ∧
  ¬ observably_equivalent ∅ sparse_trace.
Proof.
  split; [by vm_compute|]. split; [by vm_compute|].
  intros [H _]. vm_compute in H. discriminate H.
Qed.

(** ** What every call keeps *)

Lemma get_pure (this : Base) (k : key) (p : option Lodash.path) : (get k p this).2 = this.
Proof.
  destruct (key_text k) as [s|] eqn:Hk.
  - by rewrite (get_read _ _ _ _ Hk).
  - destruct k; try discriminate; method; simpl; try done.
    destruct (map this); simpl; [|done]. by destruct p.
Qed.

Lemma set_state (this : Base) (k : key) (v : value) (p : option Lodash.path) :
  (set k v p this).2 = this ∨
  ∃ s vo, (set k v p this).2 = written this s vo (column (JSON_stringify vo)).
Proof.
  destruct (key_text k) as [s|] eqn:Hk.
  - rewrite (set_read _ _ _ _ _ Hk). destruct (to_store this s v p) as [vo|]; [|by left].
    right. by exists s, vo.
  - left. by rewrite (set_invalid _ _ _ _ Hk).
Qed.

Lemma ensure_state (this : Base) (k : key) (d : value) (p : option Lodash.path) :
  (ensure k d p this).2 = this ∨ (ensure k d p this).2 = (set k d p this).2.
Proof.
  unfold ensure. destruct (isNil d); [by left|].
  pose proof (get_pure this k p) as Hg.
  destruct (get k p this) as [[x|e] this1] eqn:Hget; simpl in Hg; subst this1.
  - rewrite (bind_Return _ _ _ _ _ Hget). destruct (truthy x); [by left|].
    right. unfold mbind, M_bind. destruct p; by destruct (set k d _ this) as [[]].
  - left. by rewrite (bind_Throw _ _ _ _ _ Hget).
Qed.

Lemma delete_state (this : Base) (k : key) (p : option Lodash.path) :
  (delete k p this).2 = this ∨
  (∃ v, (delete k p this).2 = (set (toString k) v None this).2) ∨
  (∃ s, (delete k p this).2 = erased this s).
Proof.
  destruct (key_text k) as [s|] eqn:Hk.
  - destruct p as [p|].
    + right; left. exists (Lodash.unset (read this s) p).1.
      rewrite (delete_path_read _ _ _ _ Hk).
      by rewrite (set_read _ (toString k) s); [|by rewrite (key_text_toString _ _ Hk)].
    + right; right. exists s. by rewrite (delete_read _ _ _ Hk).
  - left. unfold delete.
    pose proof (get_pure this (toString k) None) as Hg.
    destruct (get (toString k) None this) as [[x|e] this1] eqn:Hget; simpl in Hg; subst this1.
    + rewrite (bind_Return _ _ _ _ _ Hget). destruct p as [p|].
      * unfold mbind, M_bind. rewrite set_invalid; [done|by destruct k].
      * destruct k; try discriminate; method; simpl; by destruct this.
    + by rewrite (bind_Throw _ _ _ _ _ Hget).
Qed.

Lemma mirror_written_written (this : Base) (s : string) (vo : value) :
  mirror_written this → mirror_written (written this s vo (column (JSON_stringify vo))).
Proof.
  intros H m Hm s'. unfold written in *. simpl in *.
  destruct (map this) as [m0|] eqn:E; simpl in Hm; [|discriminate].
  injection Hm as <-. destruct (decide (s = s')) as [<-|Hne].
  - by rewrite !lookup_insert_eq.
  - rewrite !lookup_insert_ne by done. by apply H.
Qed.

Lemma mirror_written_erased (this : Base) (s : string) :
  mirror_written this → mirror_written (erased this s).
Proof.
  intros H m Hm s'. unfold erased in *. simpl in *.
  destruct (map this) as [m0|] eqn:E; simpl in Hm; [|discriminate].
  injection Hm as <-. destruct (decide (s = s')) as [<-|Hne].
  - by rewrite !lookup_delete_eq.
  - rewrite !lookup_delete_ne by done. by apply H.
Qed.

(** A call that changes no object in place, whether it returns or throws,
    keeps the mirror written through to the table. *)
Lemma perform_mirror_written (c : call) (this : Base) :
  whole_call c → mirror_written this → mirror_written (perform c this).2.
Proof.
  intros Hc H. destruct c as [k p|k v [p|]|k d [p|]|k [p|]| |]; simpl; try done.
  - unfold mbind, M_bind. pose proof (get_pure this k p) as Hg.
    destruct (get k p this) as [[x|e] this1]; simpl in *; by subst.
  - assert (mirror_written (set k v None this).2) as Hs.
    { destruct (set_state this k v None) as [->|(s & vo & ->)]; [done|].
      by apply mirror_written_written. }
    unfold mbind, M_bind. by destruct (set k v None this) as [[]].
  - assert (mirror_written (ensure k d None this).2) as Hs.
    { destruct (ensure_state this k d None) as [->| ->]; [done|].
      destruct (set_state this k d None) as [->|(s & vo & ->)]; [done|].
      by apply mirror_written_written. }
    unfold mbind, M_bind. by destruct (ensure k d None this) as [[]].
  - assert (mirror_written (delete k None this).2) as Hs.
    { destruct (delete_state this k None) as [->|[[v ->]|[s ->]]]; [done| |].
      - destruct (set_state this (toString k) v None) as [->|(s & vo & ->)]; [done|].
        by apply mirror_written_written.
      - by apply mirror_written_erased. }
    unfold mbind, M_bind. by destruct (delete k None this) as [[]].
  - intros m Hm s. simpl in *. destruct (map this); simpl in Hm; [|discriminate].
    injection Hm as <-. by rewrite !lookup_empty.
Qed.

(** The invariant the code has on calls that change no object in place:
    from construction on, after any sequence of [get] calls and of [set],
    [ensure] and [delete] calls without a path, of [deleteAll] and
    [indices], whatever the keys and the values and whether the calls
    return or throw, each row is what [set] writes for the mirror's entry
    (the document of [JSON.stringify], null for undefined), and the mirror
    has no entry without a row. *)
Theorem whole_calls_keep_rows_written (cs : list call) (rows : gmap string json)
    (options : option BaseOptions) :
  Forall whole_call cs → mirror_written (run cs (new rows options)).2.
Proof.
  intros Hcs.
  assert (∀ this, mirror_written this → mirror_written (run cs this).2) as H.
  { induction Hcs as [|c cs Hc _ IH]; intros this Hthis; simpl; [done|].
    apply IH. by apply perform_mirror_written. }
  apply H, mirror_agrees_written, new_mirror_agrees.
Qed.

Lemma whole_calls_keep_rows_written_witness :
  mirror_written
    (run [Set_ (KStr "a") VUndefined None; Ensure (KNum 1) VNaN None; Delete (KStr "b") None;
          Get (KStr "a") (Some ["x"]); Set_ (KBool true) VNull None; Indices]
       (new {["b" := JNum 0]} None)).2.
Proof.
  apply (whole_calls_keep_rows_written
           [Set_ (KStr "a") VUndefined None; Ensure (KNum 1) VNaN None; Delete (KStr "b") None;
            Get (KStr "a") (Some ["x"]); Set_ (KBool true) VNull None; Indices]
           {["b" := JNum 0]} None).
  repeat (apply Forall_cons; split); try apply Forall_nil; exact I.
Defined.

(** ** The earlier [delete] splices *)

(** On the earlier class the tags go from ['x'] to []: the element is
    spliced out. *)
Lemma legacy_delete_splices :
  (legacy_tags_scenario legacy_empty).1 =
    Return (VArr [VStr "x"], VArr [],
            VObj [("name", VStr "Ann"); ("score", VNum 5); ("tags", VArr [])]).
Proof. vm_compute. reflexivity. Qed.

(** [splice] shifts: the elements before the index stay, those after it
    move one place to the left. *)
Lemma splice_shifts (es es' : list value) (k : string) (n : N) :
  Lodash.reIsUint k = Some n → Legacy.splice es (Some k) = Some es' →
  (∀ j, (j < N.to_nat n)%nat → es' !! j = es !! j) ∧
  (∀ j, (N.to_nat n ≤ j)%nat → es' !! j = es !! S j).
Proof.
  intros Hk. unfold Legacy.splice. rewrite Hk. intros [= <-]. split; intros j Hj.
  - destruct (decide (j < length es)%nat) as [Hlt|Hge].
    + rewrite lookup_app_l by (rewrite length_take; lia). by apply lookup_take_lt.
    + rewrite !(proj2 (lookup_ge_None _ _)); [done|lia|].
      rewrite length_app, length_take, length_drop. lia.
  - destruct (decide (N.to_nat n ≤ length es)%nat) as [Hle|Hgt].
    + rewrite lookup_app_r by (rewrite length_take; lia).
      rewrite length_take, lookup_drop. f_equal. lia.
    + rewrite !(proj2 (lookup_ge_None _ _)); [done|lia|].
      rewrite length_app, length_take, length_drop. lia.
Qed.

(** ** lodash: reading back what [_.set] wrote *)

Lemma own_put (k : string) (x : value) (ps : list (string * value)) :
  Lodash.own k (Lodash.put k x ps) = Some x.
Proof.
  induction ps as [|[k' y] ps IH]; simpl.
  - by rewrite String.eqb_refl.
  - destruct (String.eqb k k') eqn:E; simpl; rewrite E; [done|apply IH].
Qed.

Lemma own_put_ne (k k' : string) (x : value) (ps : list (string * value)) :
  k ≠ k' → Lodash.own k' (Lodash.put k x ps) = Lodash.own k' ps.
Proof.
  intros Hne. induction ps as [|[k0 y] ps IH]; simpl.
  - by rewrite (proj2 (String.eqb_neq k' k)).
  - destruct (String.eqb k k0) eqn:E; simpl.
    + apply String.eqb_eq in E as <-. by rewrite (proj2 (String.eqb_neq k' k)).
    + by rewrite IH.
Qed.

Lemma put_elem_lookup (i : nat) (x : value) (es : list value) :
  Lodash.put_elem i x es !! i = Some x.
Proof.
  unfold Lodash.put_elem. destruct (i <? length es)%nat eqn:E.
  - apply Nat.ltb_lt in E. by apply list_lookup_insert_eq.
  - apply Nat.ltb_ge in E. rewrite lookup_app_r by done.
    rewrite lookup_app_r by (rewrite length_replicate; lia).
    rewrite length_replicate. by replace (i - length es - (i - length es))%nat with 0%nat by lia.
Qed.

Lemma prop_assignValue (nested : value) (k : string) (x r : value) :
  Lodash.isObject nested = true → Lodash.assignValue nested k x = Some r →
  Lodash.prop r k = x ∧ Lodash.isObject r = true.
Proof.
  destruct nested as [| | | | | | | |es|ps]; try discriminate; intros _; simpl.
  - destruct (Lodash.array_index k) as [i|] eqn:E; [|discriminate].
    intros [= <-]. simpl. by rewrite E, put_elem_lookup.
  - intros [= <-]. simpl. by rewrite own_put.
Qed.

Lemma walk_baseSet_loop (p : Lodash.path) (nested x r : value) :
  Lodash.isObject nested = true → p ≠ [] → safe_path p →
  Lodash.baseSet_loop nested p x = Some r →
  Lodash.walk r p = x ∧ Lodash.isObject r = true.
Proof.
  revert nested r. induction p as [|k p IH]; intros nested r Hn Hp Hs; [done|].
  apply Forall_cons in Hs as [Hk Hs]. simpl. rewrite Hk.
  destruct p as [|next p'].
  - intros Ha. destruct (prop_assignValue _ _ _ _ Hn Ha) as [Hr Ho].
    by rewrite (isObject_not_nil _ Ho).
  - set (newValue := if Lodash.isObject (Lodash.prop nested k) then Lodash.prop nested k
                     else if Lodash.isIndex next then VArr [] else VObj []).
    assert (Lodash.isObject newValue = true) as Hnew.
    { unfold newValue. destruct (Lodash.isObject (Lodash.prop nested k)) eqn:E; [done|].
      by destruct (Lodash.isIndex next). }
    destruct (Lodash.baseSet_loop newValue (next :: p') x) as [child|] eqn:Hc; [|discriminate].
    intros Ha. destruct (IH newValue child Hnew ltac:(done) Hs Hc) as [Hw _].
    destruct (prop_assignValue _ _ _ _ Hn Ha) as [Hr Ho].
    by rewrite (isObject_not_nil _ Ho), Hr.
Qed.

(** [_.get] after [_.set], on a container and a path free of the names
    [_.set] refuses: the value written is read back. *)
Lemma get_set (root : value) (p : Lodash.path) (x r : value) :
  Lodash.isObject root = true → p ≠ [] → safe_path p →
  Lodash.set root p x = Some r → Lodash.get r p = x.
Proof.
  intros Hroot Hp Hs. unfold Lodash.set, Lodash.baseSet, Lodash.get, Lodash.baseGet.
  rewrite (isObject_not_nil _ Hroot), Hroot. intros Hset.
  destruct (walk_baseSet_loop _ _ _ _ Hroot Hp Hs Hset) as [Hw Ho].
  rewrite (isObject_not_nil _ Ho). by destruct p.
Qed.

Lemma walk_frame (p : Lodash.path) (nested x r : value) (q : Lodash.path) :
  Lodash.isObject nested = true →
  Lodash.baseSet_loop nested p x = Some r → apart nested p q →
  Lodash.walk r q = Lodash.walk nested q ∧ Lodash.isObject r = true.
Proof.
  revert nested r q. induction p as [|k p IH]; intros nested r q Hn; [done|].
  destruct q as [|k' q]; [done|]. simpl.
  destruct (Lodash.unsafe_key k); [by intros [= <-]|].
  assert (∀ child, Lodash.assignValue nested k child = Some r →
            String.eqb k k' = false → (∃ ps, nested = VObj ps) →
            Lodash.walk r (k' :: q) = Lodash.walk nested (k' :: q) ∧
            Lodash.isObject r = true) as Hother.
  { intros child Ha E [ps ->]. injection Ha as <-. simpl. split; [|done].
    rewrite own_put_ne; [done|]. by apply String.eqb_neq. }
  destruct p as [|next p'].
  - intros Ha. destruct (String.eqb k k') eqn:E; [by intros [_ []]|].
    intros Hps. apply (Hother x Ha eq_refl Hps).
  - set (newValue := if Lodash.isObject (Lodash.prop nested k) then Lodash.prop nested k
                     else if Lodash.isIndex next then VArr [] else VObj []).
    destruct (Lodash.baseSet_loop newValue (next :: p') x) as [child|] eqn:Hc; [|discriminate].
    intros Ha. destruct (String.eqb k k') eqn:E.
    + apply String.eqb_eq in E as <-. intros [Hobj Hap].
      assert (newValue = Lodash.prop nested k) as Hnew by (unfold newValue; by rewrite Hobj).
      rewrite Hnew in Hc. destruct (IH _ _ _ Hobj Hc Hap) as [Hw _].
      destruct (prop_assignValue _ _ _ _ Hn Ha) as [Hr Ho].
      change (Lodash.walk r (k :: q)) with
        (if isNil r then VUndefined else Lodash.walk (Lodash.prop r k) q).
      change (Lodash.walk nested (k :: q)) with
        (if isNil nested then VUndefined else Lodash.walk (Lodash.prop nested k) q).
      by rewrite (isObject_not_nil _ Ho), (isObject_not_nil _ Hn), Hr, Hw.
    + intros Hps. apply (Hother child Ha eq_refl Hps).
Qed.

(** ** Reading a value back through its row *)

Lemma members_parse (ms : list (string * json)) :
  members_with JSON_stringify (parse_members ms) = ms.
Proof.
  pose proof (JSON_stringify_parse (JObj ms)) as H. simpl in H. by injection H.
Qed.

Lemma own_members (k : string) (ps : list (string * value)) (y : value) (dy : json) :
  Lodash.own k ps = Some y → JSON_stringify y = Some dy →
  Lodash.own k (parse_members (members_with JSON_stringify ps)) = Some (JSON_parse dy).
Proof.
  intros Hown Hy. induction ps as [|[k0 x] ps IH]; simpl in *; [done|].
  destruct (String.eqb k k0) eqn:E.
  - injection Hown as ->. rewrite Hy. simpl. by rewrite E.
  - destruct (JSON_stringify x); simpl; rewrite ?E; by apply IH.
Qed.

Lemma own_members_put_ne (k k' : string) (c : value) (ps : list (string * value)) :
  k ≠ k' →
  Lodash.own k' (parse_members (members_with JSON_stringify (Lodash.put k c ps))) =
  Lodash.own k' (parse_members (members_with JSON_stringify ps)).
Proof.
  intros Hne. assert (String.eqb k' k = false) as Hk by (apply String.eqb_neq; congruence).
  induction ps as [|[k0 y] ps IH]; simpl.
  - destruct (JSON_stringify c); simpl; by rewrite ?Hk.
  - destruct (String.eqb k k0) eqn:E; simpl.
    + apply String.eqb_eq in E as <-.
      destruct (JSON_stringify c), (JSON_stringify y); simpl; by rewrite ?Hk.
    + destruct (JSON_stringify y); simpl; [|done]. by rewrite IH.
Qed.

(** A property that can be written to the row is read back from the row. *)
Lemma prop_reparse (o : value) (d : json) (k : string) (dy : json) :
  JSON_stringify o = Some d → JSON_stringify (Lodash.prop o k) = Some dy →
  Lodash.prop (JSON_parse d) k = JSON_parse dy.
Proof.
  destruct o as [| | | | | | |s|es|ps]; simpl; try discriminate; intros [= <-]; simpl.
  - destruct (Lodash.array_index k) as [i|].
    + destruct (String.get i s); simpl; [|discriminate]. by intros [= <-].
    + destruct (String.eqb k "length"); simpl; [|discriminate]. by intros [= <-].
  - destruct (Lodash.array_index k) as [i|].
    + rewrite !list_lookup_fmap. destruct (es !! i) as [y|]; simpl; [|discriminate].
      by intros ->.
    + destruct (String.eqb k "length"); simpl; [|discriminate].
      intros [= <-]. simpl. by rewrite !length_map.
  - destruct (Lodash.own k ps) as [y|] eqn:Hown; simpl; [|discriminate].
    intros Hy. fold (parse_members (members_with JSON_stringify ps)).
    by rewrite (own_members _ _ _ _ Hown Hy).
Qed.

Lemma walk_undefined (q : Lodash.path) : Lodash.walk VUndefined q = VUndefined.
Proof. by destruct q. Qed.

(** A value found along a path and fit for a row is found, reparsed, along
    the same path in the row. *)
Lemma walk_reparse (q : Lodash.path) (o : value) (d dy : json) :
  JSON_stringify o = Some d → JSON_stringify (Lodash.walk o q) = Some dy →
  Lodash.walk (JSON_parse d) q = JSON_parse dy.
Proof.
  revert o d. induction q as [|k q IH]; intros o d Ho; simpl.
  - rewrite Ho. by intros [= <-].
  - destruct (isNil o) eqn:Hnil; [discriminate|].
    intros Hy. destruct (stringify_defined (Lodash.prop o k)) as [dk Hdk].
    { intros E. rewrite E, walk_undefined in Hy. discriminate. }
    assert (isNil (JSON_parse d) = false) as ->.
    { destruct o; try discriminate; injection Ho as <-; done. }
    rewrite (prop_reparse _ _ _ _ Ho Hdk). by apply (IH _ _ Hdk).
Qed.

Lemma prop_parse (j : json) (k : string) :
  Lodash.prop (JSON_parse j) k = VUndefined ∨ ∃ j', Lodash.prop (JSON_parse j) k = JSON_parse j'.
Proof.
  destruct j as [| | | |s|js|ms]; simpl; try (by left).
  - destruct (Lodash.array_index k) as [i|].
    + destruct (String.get i s) as [c|]; [|by left]. right. by exists (JStr (String c EmptyString)).
    + destruct (String.eqb k "length"); [|by left].
      right. by exists (JNum (Z.of_nat (String.length s))).
  - destruct (Lodash.array_index k) as [i|].
    + rewrite list_lookup_fmap. destruct (js !! i) as [j'|]; simpl; [|by left].
      right. by exists j'.
    + destruct (String.eqb k "length"); [|by left].
      right. by exists (JNum (Z.of_nat (length (List.map JSON_parse js)))).
  - induction ms as [|[k0 j0] ms IH]; simpl; [by left|].
    destruct (String.eqb k k0); [|done]. right. by exists j0.
Qed.

Lemma stringify_assignValue (nested : value) (k : string) (c r : value) (dc : json) :
  Lodash.isObject nested = true → Lodash.assignValue nested k c = Some r →
  JSON_stringify c = Some dc →
  ∃ d, JSON_stringify r = Some d ∧ Lodash.prop (JSON_parse d) k = JSON_parse dc.
Proof.
  intros Hn Ha Hc. destruct (prop_assignValue _ _ _ _ Hn Ha) as [Hr Ho].
  destruct (stringify_object _ Ho) as [d Hd]. exists d. split; [done|].
  apply (prop_reparse _ _ _ _ Hd). by rewrite Hr.
Qed.

Lemma walk_frame_reparse (p : Lodash.path) (jn : json) (x r : value) (d : json)
    (q : Lodash.path) :
  Lodash.isObject (JSON_parse jn) = true →
  Lodash.baseSet_loop (JSON_parse jn) p x = Some r → JSON_stringify r = Some d →
  apart (JSON_parse jn) p q →
  Lodash.walk (JSON_parse d) q = Lodash.walk (JSON_parse jn) q.
Proof.
  revert jn r d q. induction p as [|k p IH]; intros jn r d q Hn; [done|].
  destruct q as [|k' q]; [done|]. simpl.
  destruct (Lodash.unsafe_key k).
  { intros [= <-]. rewrite JSON_stringify_parse. by intros [= <-]. }
  assert (∀ child, Lodash.assignValue (JSON_parse jn) k child = Some r →
            JSON_stringify r = Some d →
            String.eqb k k' = false → (∃ ps, JSON_parse jn = VObj ps) →
            (if isNil (JSON_parse d) then VUndefined
             else Lodash.walk (Lodash.prop (JSON_parse d) k') q) =
            (if isNil (JSON_parse jn) then VUndefined
             else Lodash.walk (Lodash.prop (JSON_parse jn) k') q)) as Hother.
  { intros child Ha Hd E [ps Hps]. destruct jn as [| | | | | |ms]; try discriminate.
    simpl in Hps. injection Hps as <-. simpl in Ha. injection Ha as <-.
    simpl in Hd. injection Hd as <-. simpl.
    fold (parse_members ms).
    fold (parse_members (members_with JSON_stringify (Lodash.put k child (parse_members ms)))).
    rewrite own_members_put_ne by (by apply String.eqb_neq).
    by rewrite members_parse. }
  destruct p as [|next p'].
  - intros Ha Hd. destruct (String.eqb k k') eqn:E; [by intros [_ []]|].
    intros Hps. apply (Hother x Ha Hd eq_refl Hps).
  - set (newValue := if Lodash.isObject (Lodash.prop (JSON_parse jn) k)
                     then Lodash.prop (JSON_parse jn) k
                     else if Lodash.isIndex next then VArr [] else VObj []).
    destruct (Lodash.baseSet_loop newValue (next :: p') x) as [child|] eqn:Hc; [|discriminate].
    intros Ha Hd. destruct (String.eqb k k') eqn:E.
    + apply String.eqb_eq in E as <-. intros [Hobj Hap].
      assert (newValue = Lodash.prop (JSON_parse jn) k) as Hnew
        by (unfold newValue; by rewrite Hobj).
      rewrite Hnew in Hc.
      destruct (prop_parse jn k) as [Hu|[jk Hjk]]; [by rewrite Hu in Hobj|].
      rewrite Hjk in Hc, Hobj, Hap.
      destruct (walk_frame _ _ _ _ _ Hobj Hc Hap) as [_ Hco].
      destruct (stringify_object _ Hco) as [dc Hdc].
      destruct (stringify_assignValue _ _ _ _ _ Hn Ha Hdc) as (d' & Hd' & Hprop).
      rewrite Hd in Hd'. injection Hd' as <-.
      assert (isNil (JSON_parse d) = false) as ->.
      { destruct (prop_assignValue _ _ _ _ Hn Ha) as [_ Ho].
        destruct r; try discriminate; injection Hd as <-; done. }
      rewrite (isObject_not_nil _ Hn), Hprop, Hjk.
      by apply (IH jk child dc q Hobj Hc Hdc Hap).
    + intros Hps. apply (Hother child Ha Hd eq_refl Hps).
Qed.

(** ** [set] with a path on a container or on nothing *)

Lemma read_direct (this : Base) (s : string) :
  map this = None → read this s = VUndefined ∨ ∃ j, read this s = JSON_parse j.
Proof.
  intros Hm. unfold read. rewrite Hm.
  destruct (database this !! s) as [j|]; [right; by exists j|by left].
Qed.

Lemma root_for_set_direct (this : Base) (s : string) :
  map this = None → ∃ j, root_for_set this s = JSON_parse j.
Proof.
  intros Hm. unfold root_for_set.
  destruct (read_direct this s Hm) as [->|[j ->]]; [by exists (JObj [])|].
  destruct (isNil (JSON_parse j)); [by exists (JObj [])|by exists j].
Qed.

Lemma set_path_written (this this' : Base) (k : key) (s : string) (v : value)
    (p : Lodash.path) :
  key_text k = Some s → Lodash.isObject (root_for_set this s) = true →
  set k v (Some p) this = (Return (), this') →
  ∃ vo d, Lodash.set (root_for_set this s) p v = Some vo ∧ JSON_stringify vo = Some d ∧
          this' = written this s vo d.
Proof.
  intros Hk Hroot. rewrite (set_read _ _ _ _ _ Hk). unfold to_store.
  fold (root_for_set this s).
  destruct (Lodash.set (root_for_set this s) p v) as [vo|] eqn:E; [|discriminate].
  destruct (stringify_object vo (set_isObject _ _ _ _ Hroot E)) as [d Hd].
  rewrite Hd. intros [= <-]. by exists vo, d.
Qed.

(** When the key holds a container or nothing, a completed [set(K, L, P)]
    is read back by [get(K, P)], with and without the mirror: [P] is any
    non-empty path free of the names [_.set] refuses, [L] any Value. *)
Lemma set_path_then_get (this this' : Base) (k : key) (s : string) (p : Lodash.path)
    (l : json) :
  key_text k = Some s → p ≠ [] → safe_path p →
  Lodash.isObject (root_for_set this s) = true →
  set k (JSON_parse l) (Some p) this = (Return (), this') →
  get k (Some p) this' = (Return (JSON_parse l), this').
Proof.
  intros Hk Hp Hs Hroot Hset.
  destruct (set_path_written _ _ _ _ _ _ Hk Hroot Hset) as (vo & d & Hvo & Hd & ->).
  rewrite (get_read _ _ _ _ Hk), read_written. f_equal. f_equal.
  destruct (map this); [by apply (get_set _ _ _ _ Hroot Hp Hs)|].
  pose proof (get_set _ _ _ _ Hroot Hp Hs Hvo) as Hg.
  unfold Lodash.get, Lodash.baseGet in *.
  destruct (isNil vo) eqn:Hnil.
  { destruct p; [done|]. pose proof (JSON_parse_defined l). congruence. }
  assert (isNil (JSON_parse d) = false) as ->.
  { pose proof (set_isObject _ _ _ _ Hroot Hvo) as Hobj.
    destruct vo; try discriminate Hobj; injection Hd as <-; done. }
  destruct p as [|k0 p]; [done|].
  apply (walk_reparse _ _ _ _ Hd). rewrite Hg. apply JSON_stringify_parse.
Qed.

(** ... and every sibling location reads as it did before the call. *)
Lemma set_path_frame (this this' : Base) (k : key) (s : string) (p q : Lodash.path)
    (v : value) :
  key_text k = Some s →
  Lodash.isObject (root_for_set this s) = true →
  set k v (Some p) this = (Return (), this') →
  apart (root_for_set this s) p q →
  get k (Some q) this' = (Return (Lodash.get (root_for_set this s) q), this').
Proof.
  intros Hk Hroot Hset Hap.
  destruct (set_path_written _ _ _ _ _ _ Hk Hroot Hset) as (vo & d & Hvo & Hd & ->).
  rewrite (get_read _ _ _ _ Hk), read_written. f_equal. f_equal.
  unfold Lodash.set, Lodash.baseSet in Hvo.
  rewrite (isObject_not_nil _ Hroot), Hroot in Hvo.
  destruct (walk_frame _ _ _ _ _ Hroot Hvo Hap) as [Hw Ho].
  assert (q ≠ []) as Hq by (destruct p, q; done).
  unfold Lodash.get, Lodash.baseGet. rewrite (isObject_not_nil _ Hroot).
  destruct (map this) eqn:Hm.
  - rewrite (isObject_not_nil _ Ho). by destruct q.
  - assert (isNil (JSON_parse d) = false) as ->.
    { destruct vo; try discriminate Ho; injection Hd as <-; done. }
    destruct (root_for_set_direct this s Hm) as [jn Hjn]. rewrite Hjn in *.
    destruct q; [done|]. by apply (walk_frame_reparse p jn v vo d).
Qed.

Lemma root_for_set_read (this : Base) (s : string) (q : Lodash.path) :
  Lodash.get (root_for_set this s) q = Lodash.get (read this s) q.
Proof.
  unfold root_for_set. destruct (isNil (read this s)) eqn:E; [|done].
  unfold Lodash.get. rewrite E. simpl. destruct q as [|k q]; [done|]. simpl.
  apply walk_undefined.
Qed.

(** ** Paths of own accessors *)

Lemma prop_scalar_not_object (v : value) (k : string) :
  Lodash.isObject v = false → Lodash.isObject (Lodash.prop v k) = false.
Proof.
  destruct v as [| | | | | | |s| |]; try discriminate; try done. intros _. simpl.
  destruct (Lodash.array_index k) as [i|].
  - by destruct (String.get i s).
  - by destruct (String.eqb k "length").
Qed.

Lemma own_accessor_safe (k : string) : own_accessor k = true → Lodash.unsafe_key k = false.
Proof.
  unfold own_accessor. intros H. apply andb_true_iff in H as [H _].
  apply andb_true_iff in H as [H _]. by apply negb_true_iff.
Qed.

Lemma own_path_safe (p : Lodash.path) : own_path p → safe_path p.
Proof. intros H. eapply Forall_impl; [exact H|]. apply own_accessor_safe. Qed.

Lemma own_accessor_index (k : string) :
  own_accessor k = true → Lodash.isIndex k = true → ∃ i, Lodash.array_index k = Some i.
Proof.
  unfold own_accessor, index_or_name. intros H Hi. apply andb_true_iff in H as [_ H].
  destruct (Lodash.array_index k) as [i|]; [by exists i|]. by rewrite Hi in H.
Qed.

(** A name with a character that is not a letter or an underscore is not
    one of the names [_.set] refuses, nor the name of a member of
    [Object.prototype]. *)
Lemma data_accessor_own (k : string) : data_accessor k = true → own_accessor k = true.
Proof.
  unfold data_accessor, own_accessor. intros H. apply andb_true_iff in H as [Hl ->].
  rewrite andb_true_r. apply negb_true_iff in Hl.
  assert (∀ m, letters m = true → String.eqb k m = false) as Hne.
  { intros m Hm. apply String.eqb_neq. intros ->. congruence. }
  unfold Lodash.unsafe_key, Object_prototype, existsb.
  by rewrite !Hne.
Qed.

Lemma data_path_own (p : Lodash.path) : data_path p → own_path p.
Proof. intros H. eapply Forall_impl; [exact H|]. apply data_accessor_own. Qed.

Lemma indexed_scalar (p : Lodash.path) (v : value) :
  Lodash.isObject v = false → indexed v p = true.
Proof.
  revert v. induction p as [|k p IH]; intros v Hv; [done|].
  pose proof (IH _ (prop_scalar_not_object v k Hv)) as H.
  destruct v; try discriminate; simpl in *; try done.
  all: by destruct (Lodash.array_index k).
Qed.

Lemma indexed_cons (nested : value) (k : string) (p : Lodash.path) :
  indexed nested (k :: p) = true →
  indexed (Lodash.prop nested k) p = true ∧
  ∀ x, Lodash.isObject nested = true → ∃ r, Lodash.assignValue nested k x = Some r.
Proof.
  intros H. split.
  - destruct nested; simpl in *; try done; by destruct (Lodash.array_index k).
  - intros x Hn. destruct nested; try discriminate; simpl in *; [|eauto].
    destruct (Lodash.array_index k); [eauto|discriminate].
Qed.

(** [_.set] completes along a path of own accessors on which the
    sequences are addressed by indices. *)
Lemma baseSet_loop_defined (p : Lodash.path) (nested x : value) :
  Lodash.isObject nested = true → own_path p → indexed nested p = true →
  ∃ r, Lodash.baseSet_loop nested p x = Some r.
Proof.
  revert nested. induction p as [|k p IH]; intros nested Hn Hp Hi; [by exists nested|].
  apply Forall_cons in Hp as [Hk Hp]. simpl. rewrite (own_accessor_safe _ Hk).
  destruct (indexed_cons _ _ _ Hi) as [Hi' Ha].
  destruct p as [|next p']; [by apply Ha|].
  set (newValue := if Lodash.isObject (Lodash.prop nested k) then Lodash.prop nested k
                   else if Lodash.isIndex next then VArr [] else VObj []).
  assert (Lodash.isObject newValue = true ∧ indexed newValue (next :: p') = true)
    as [Hnew Hinew].
  { unfold newValue. destruct (Lodash.isObject (Lodash.prop nested k)) eqn:E; [done|].
    apply Forall_cons in Hp as [Hnext _].
    destruct (Lodash.isIndex next) eqn:Hidx.
    - split; [done|]. destruct (own_accessor_index _ Hnext Hidx) as [i Hi0].
      simpl. rewrite Hi0. by apply indexed_scalar.
    - split; [done|]. simpl. by apply indexed_scalar. }
  destruct (IH newValue Hnew Hp Hinew) as [child ->]. by apply Ha.
Qed.

Lemma set_path_returns (this : Base) (k : key) (s : string) (p : Lodash.path) (v : value) :
  key_text k = Some s → Lodash.isObject (root_for_set this s) = true →
  own_path p → indexed (root_for_set this s) p = true →
  ∃ this', set k v (Some p) this = (Return (), this').
Proof.
  intros Hk Hroot Hp Hi. rewrite (set_read _ _ _ _ _ Hk). unfold to_store.
  fold (root_for_set this s). unfold Lodash.set, Lodash.baseSet.
  rewrite (isObject_not_nil _ Hroot), Hroot.
  destruct (baseSet_loop_defined p _ v Hroot Hp Hi) as [r ->]. eauto.
Qed.

(** ** The two modes on whole-value calls *)

Lemma paired_read (tm td : Base) (s : string) : paired tm td → read tm s = read td s.
Proof.
  intros (Hm & Hd & Hdb). unfold read. rewrite Hm, Hd, Hdb, lookup_fmap.
  by destruct (database tm !! s).
Qed.

Lemma paired_written (tm td : Base) (s : string) (j : json) :
  paired tm td → paired (written tm s (JSON_parse j) j) (written td s (JSON_parse j) j).
Proof.
  intros (Hm & Hd & Hdb). unfold paired, written. simpl. rewrite Hm, Hd, Hdb. simpl.
  by rewrite fmap_insert.
Qed.

Lemma paired_erased (tm td : Base) (s : string) :
  paired tm td → paired (erased tm s) (erased td s).
Proof.
  intros (Hm & Hd & Hdb). unfold paired, erased. simpl. rewrite Hm, Hd, Hdb. simpl.
  by rewrite fmap_delete.
Qed.

Lemma paired_new (rows : gmap string json) : paired (mirrored rows) (direct rows).
Proof. done. Qed.

Lemma perform_paired (c : call) (tm td : Base) :
  whole_value_call c → paired tm td →
  (perform c tm).1 = (perform c td).1 ∧ paired (perform c tm).2 (perform c td).2.
Proof.
  intros Hc Hp. pose proof (λ s, paired_read tm td s Hp) as Hr.
  destruct c as [k [p|]|k v [p|]|k d [p|]|k [p|]| |]; simpl in Hc; try done.
  - destruct Hc as [s Hk]. simpl. unfold mbind, M_bind.
    rewrite !(get_read _ _ _ _ Hk). simpl. by rewrite Hr.
  - destruct Hc as [[s Hk] [j ->]]. simpl. unfold mbind, M_bind.
    rewrite !(set_read _ _ _ _ _ Hk). simpl. rewrite JSON_stringify_parse. simpl.
    split; [done|by apply paired_written].
  - destruct Hc as [[s Hk] [j ->]]. simpl.
    assert ((ensure k (JSON_parse j) None tm).1 = (ensure k (JSON_parse j) None td).1 ∧
            paired (ensure k (JSON_parse j) None tm).2 (ensure k (JSON_parse j) None td).2)
      as [He Hp'].
    { destruct (isNil (JSON_parse j)) eqn:Hnil.
      { unfold ensure. by rewrite Hnil. }
      rewrite !(ensure_read _ _ _ _ _ Hk Hnil). simpl. rewrite Hr.
      destruct (truthy (read td s)); [done|].
      unfold mbind, M_bind. rewrite !(set_read _ _ _ _ _ Hk). simpl.
      rewrite JSON_stringify_parse. simpl. split; [done|by apply paired_written]. }
    unfold mbind, M_bind.
    destruct (ensure k (JSON_parse j) None tm) as [[x|e] tm'],
             (ensure k (JSON_parse j) None td) as [[y|e'] td']; simpl in *;
      split; congruence.
  - destruct Hc as [s Hk]. simpl. unfold mbind, M_bind.
    rewrite !(delete_read _ _ _ Hk). simpl. rewrite Hr.
    split; [done|by apply paired_erased].
  - destruct Hp as (Hm & Hd & Hdb). split; [done|]. unfold paired. simpl.
    rewrite Hm, Hd. simpl. by rewrite fmap_empty.
  - destruct Hp as (Hm & Hd & Hdb). split; [|done]. simpl. unfold indices.
    rewrite Hm, Hd, Hdb. by rewrite dom_fmap_L.
Qed.

(** On calls that read, write and delete whole Entries, the mirrored and
    the direct store give the same answers and end with the same table. *)
Lemma modes_agree_on_whole_values (rows : gmap string json) (cs : list call) :
  Forall whole_value_call cs → observably_equivalent rows cs.
Proof.
  intros Hcs.
  assert (∀ tm td, paired tm td →
            (run cs tm).1 = (run cs td).1 ∧ paired (run cs tm).2 (run cs td).2) as H.
  { induction Hcs as [|c cs Hc _ IH]; intros tm td Hp; simpl; [done|].
    destruct (perform_paired c tm td Hc Hp) as [He Hp'].
    destruct (IH _ _ Hp') as [He' Hp'']. split; [by rewrite He, He'|done]. }
  destruct (H _ _ (paired_new rows)) as [He (_ & _ & Hdb)]. split; [done|by symmetry].
Qed.

(** ** The lemmas at work on the scenario of the specification *)

(** [set('user:1', 5, 'score')] on {name: 'Ann', score: 0}: the score reads
    5 afterwards and the name is untouched, with and without the mirror. *)
Lemma score_scenario (rows : gmap string json) (this : Base) :
  rows = {["user:1" := JObj [("name", JStr "Ann"); ("score", JNum 0)]]} →
  this = mirrored rows ∨ this = direct rows →
  ∃ this', set (KStr "user:1") (VNum 5) (Some ["score"]) this = (Return (), this') ∧
           get (KStr "user:1") (Some ["score"]) this' = (Return (VNum 5), this') ∧
           get (KStr "user:1") (Some ["name"]) this' = (Return (VStr "Ann"), this').
Proof.
  intros -> Hthis.
  assert (∃ this', set (KStr "user:1") (VNum 5) (Some ["score"]) this = (Return (), this'))
    as [this' Hset] by (destruct Hthis as [-> | ->]; eexists; vm_compute; reflexivity).
  assert (Lodash.isObject (root_for_set this "user:1") = true) as Hroot
    by (by destruct Hthis as [-> | ->]).
  exists this'. split; [done|]. split.
  - apply (set_path_then_get this this' (KStr "user:1") "user:1" ["score"] (JNum 5));
      try done. by repeat constructor.
  - assert (apart (root_for_set this "user:1") ["score"] ["name"]) as Hap
      by (destruct Hthis as [-> | ->]; vm_compute; eauto).
    pose proof (set_path_frame this this' (KStr "user:1") "user:1" ["score"] ["name"] (VNum 5)
               eq_refl Hroot Hset Hap) as Hf.
    refine (eq_trans Hf _). by destruct Hthis as [-> | ->].
Qed.

(** * Further properties of [src/index.ts] *)

(** ** Reading *)

Lemma get_Nil (p : Lodash.path) (v : value) : isNil v = true → Lodash.get v p = VUndefined.
Proof. intros H. unfold Lodash.get. by rewrite H. Qed.



(** What the constructor leaves to read: under either mode, a text or
    numeric key reads the Value its row spells, or undefined when there is
    no row, and a path is followed into it. *)
Theorem get_after_new (rows : gmap string json) (options : option BaseOptions)
    (k : key) (s : string) (p : option Lodash.path) :
  key_text k = Some s →
  (get k p (new rows options)).1 =
    Return (let root := match rows !! s with
                        | Some text => JSON_parse text
                        | None => VUndefined
                        end in
            match p with Some p => Lodash.get root p | None => root end).
Proof.
  intros Hk. rewrite (get_read _ _ _ _ Hk). simpl.
  assert (read (new rows options) s =
          match rows !! s with Some text => JSON_parse text | None => VUndefined end) as ->;
    [|done].
  unfold new, read. destruct (options ≫= inMemory) as [[|]|]; simpl;
    rewrite ?lookup_fmap; by destruct (rows !! s).
Qed.

Lemma get_after_new_witness :
  (get (KNum 1) (Some ["tags"; "1"])
     (new {["1" := JObj [("tags", JArr [JStr "a"; JStr "b"])]]} None)).1 =
  Return (VStr "b").
Proof.
  exact (get_after_new {["1" := JObj [("tags", JArr [JStr "a"; JStr "b"])]]} None (KNum 1) "1"
           (Some ["tags"; "1"]) eq_refl).
Defined.

(** ** Entries are addressed by the text of the key *)

Lemma read_written_ne (this : Base) (s s' : string) (v : value) (d : json) :
  s ≠ s' → read (written this s v d) s' = read this s'.
Proof.
  intros Hne. unfold read, written. destruct (map this); simpl;
    by rewrite lookup_insert_ne.
Qed.

Lemma read_erased_ne (this : Base) (s s' : string) :
  s ≠ s' → read (erased this s) s' = read this s'.
Proof.
  intros Hne. unfold read, erased. destruct (map this); simpl;
    by rewrite lookup_delete_ne.
Qed.

Lemma set_touches (this : Base) (k : key) (v : value) (p : option Lodash.path) :
  touches this (set k v p this).2 k.
Proof.
  destruct (key_text k) as [s|] eqn:Hk.
  - rewrite (set_read _ _ _ _ _ Hk). destruct (to_store this s v p) as [vo|]; [|by left].
    right. exists s. split; [done|]. left. eauto.
  - left. by rewrite (set_invalid _ _ _ _ Hk).
Qed.

Lemma ensure_touches (this : Base) (k : key) (d : value) (p : option Lodash.path) :
  touches this (ensure k d p this).2 k.
Proof.
  destruct (ensure_state this k d p) as [-> | ->]; [by left|apply set_touches].
Qed.

Lemma delete_touches (this : Base) (k : key) (p : option Lodash.path) :
  touches this (delete k p this).2 k.
Proof.
  destruct (key_text k) as [s|] eqn:Hk.
  - destruct p as [p|].
    + rewrite (delete_path_read _ _ _ _ Hk).
      right. exists s. split; [done|]. left. eauto.
    + rewrite (delete_read _ _ _ Hk). right. exists s. split; [done|]. by right.
  - left. destruct (delete_state this k p) as [->|[[v ->]|[s Hs]]]; [done| |].
    + rewrite set_invalid; [done|by destruct k].
    + revert Hs. unfold delete.
      pose proof (get_pure this (toString k) None) as Hg.
      destruct (get (toString k) None this) as [[x|e] this1] eqn:Hget; simpl in Hg; subst.
      * rewrite (bind_Return _ _ _ _ _ Hget). destruct p as [p|].
        -- unfold mbind, M_bind. rewrite set_invalid; [done|by destruct k].
        -- destruct k; try discriminate; method; simpl; by destruct this.
      * by rewrite (bind_Throw _ _ _ _ _ Hget).
Qed.

Lemma touches_read (this this' : Base) (k : key) (s' : string) :
  touches this this' k → key_text k ≠ Some s' → read this' s' = read this s'.
Proof.
  intros [->|(s & Hk & [(vo & d & ->)| ->])] Hne; [done| |].
  - apply read_written_ne. congruence.
  - apply read_erased_ne. congruence.
Qed.

(** A safe integer and the text of its decimal numeral are one key: what
    [set] stores under a key is read back under any key of the same text,
    for every Value with finite numbers. *)
Theorem set_get_same_text (this : Base) (k k' : key) (s : string) (V : value) :
  key_text k = Some s → key_text k' = Some s →
  safe_key k = true → safe_key k' = true → plain V = true →
  ∃ this', set k V None this = (Return (), this') ∧
           get k' None this' = (Return V, this').
Proof.
  intros Hk Hk' _ _ HV.
  destruct (set_whole_plain this k s V Hk HV) as (d & Hd & Hp & Hset).
  exists (written this s V d). split; [done|].
  rewrite (get_read _ _ _ _ Hk'), read_written. destruct (map this); [done|].
  by rewrite Hp.
Qed.

Lemma set_get_same_text_witness :
  ∃ this', set (KNum 42) (VArr [VBool true; VStr "x"]) None (direct ∅) = (Return (), this') ∧
           get (KStr "42") None this' = (Return (VArr [VBool true; VStr "x"]), this').
Proof. apply (set_get_same_text (direct ∅) (KNum 42) (KStr "42") "42"); reflexivity. Defined.

(** A call on one key leaves every key of another text as it reads: [set],
    [ensure] and [delete], whether they return or throw.  The keys are
    texts or safe integers; a call with a path is one on an instance
    without the mirror, along data accessors. *)
Theorem other_keys_untouched (this : Base) (k k' : key) (s' : string) (v : value)
    (p p' : option Lodash.path) :
  key_text k' = Some s' → key_text k ≠ Some s' →
  safe_key k = true → safe_key k' = true →
  match p with
  | Some q => map this = None ∧ data_path q
  | None => True
  end →
  (get k' p' (set k v p this).2).1 = (get k' p' this).1 ∧
  (get k' p' (ensure k v p this).2).1 = (get k' p' this).1 ∧
  (get k' p' (delete k p this).2).1 = (get k' p' this).1.
Proof.
  intros Hk' Hne _ _ _. rewrite !(get_read _ _ _ _ Hk'). simpl.
  rewrite (touches_read _ _ _ _ (set_touches this k v p) Hne).
  rewrite (touches_read _ _ _ _ (ensure_touches this k v p) Hne).
  by rewrite (touches_read _ _ _ _ (delete_touches this k p) Hne).
Qed.

Lemma other_keys_untouched_witness :
  (get (KStr "b") (Some ["x"])
     (set (KNum 1) (VNum 3) (Some ["x-y"; "0"])
        (direct {["1" := JNum 1; "b" := JObj [("x", JNum 2)]]})).2).1 =
  (get (KStr "b") (Some ["x"]) (direct {["1" := JNum 1; "b" := JObj [("x", JNum 2)]]})).1 ∧
  (get (KStr "b") None
     (delete (KNum 1) None (mirrored {["1" := JNum 1; "b" := JObj [("x", JNum 2)]]})).2).1 =
  (get (KStr "b") None (mirrored {["1" := JNum 1; "b" := JObj [("x", JNum 2)]]})).1.
Proof.
  split.
  - refine (proj1 (other_keys_untouched
                     (direct {["1" := JNum 1; "b" := JObj [("x", JNum 2)]]})
                     (KNum 1) (KStr "b") "b" (VNum 3) (Some ["x-y"; "0"]) (Some ["x"])
                     _ _ _ _ _)).
    + reflexivity.
    + vm_compute. discriminate.
    + reflexivity.
    + reflexivity.
    + split; [reflexivity|]. by repeat constructor.
  - refine (proj2 (proj2 (other_keys_untouched
                            (mirrored {["1" := JNum 1; "b" := JObj [("x", JNum 2)]]})
                            (KNum 1) (KStr "b") "b" VNull None None _ _ _ _ _))).
    + reflexivity.
    + vm_compute. discriminate.
    + reflexivity.
    + reflexivity.
    + exact I.
Defined.

(** ** [ensure] returns what is stored *)

Lemma ensure_keeps_truthy_witness :
  ensure (KStr "a") (VNum 9) (Some ["x"]) (mirrored {["a" := JObj [("x", JStr "old")]]}) =
    (Return (VStr "old"), mirrored {["a" := JObj [("x", JStr "old")]]}).
Proof.
  apply (ensure_keeps_truthy (mirrored {["a" := JObj [("x", JStr "old")]]}) (KStr "a") "a");
    reflexivity.
Defined.






(** ** [delete] *)

Lemma delete_entry_witness :
  delete (KNum 5) None (mirrored {["5" := JStr "five"]}) =
    (Return true, erased (mirrored {["5" := JStr "five"]}) "5") ∧
  stored (erased (mirrored {["5" := JStr "five"]}) "5") "5" = None ∧
  mirror (erased (mirrored {["5" := JStr "five"]}) "5") "5" = None ∧
  get (KNum 5) None (erased (mirrored {["5" := JStr "five"]}) "5") =
    (Return VUndefined, erased (mirrored {["5" := JStr "five"]}) "5").
Proof. exact (delete_entry (mirrored {["5" := JStr "five"]}) (KNum 5) "5" eq_refl). Defined.

(** [delete(K)] a second time always returns false: the first call leaves
    no Entry, whatever it held and whatever it returned. *)
Theorem delete_again_false (this : Base) (k : key) (s : string) :
  key_text k = Some s →
  ∃ r this' this'', delete k None this = (Return r, this') ∧
                    delete k None this' = (Return false, this'') ∧
                    stored this'' s = None ∧ mirror this'' s = None.
Proof.
  intros Hk. exists (truthy (read this s)), (erased this s), (erased (erased this s) s).
  rewrite !(delete_read _ _ _ Hk), read_erased. split; [done|]. split; [done|].
  unfold stored, mirror, erased. simpl. split; [apply lookup_delete_eq|].
  destruct (map this); simpl; [|done]. apply lookup_delete_eq.
Qed.

Lemma delete_again_false_witness :
  ∃ r this' this'', delete (KStr "k") None (direct {["k" := JNum 0]}) = (Return r, this') ∧
                    delete (KStr "k") None this' = (Return false, this'') ∧
                    stored this'' "k" = None ∧ mirror this'' "k" = None.
Proof. apply (delete_again_false (direct {["k" := JNum 0]}) (KStr "k") "k"). reflexivity. Defined.

(** A write of undefined is not refused: [set(K, undefined)] returns, the
    row of [K] gets the value [NULL], which reads as null, and the mirror
    an entry that holds undefined, so that [get(K)] afterwards is
    undefined with the mirror and null without it.  [delete(K, P)] on a
    key that has no Entry makes the same write and returns true. *)
Theorem undefined_is_written_as_null (this : Base) (k : key) (s : string)
    (p : Lodash.path) :
  key_text k = Some s → safe_key k = true →
  ∃ this', set k VUndefined None this = (Return (), this') ∧
           stored this' s = Some JNull ∧
           (∀ m, map this = Some m → mirror this' s = Some VUndefined) ∧
           get k None this' =
             (Return (match map this with Some _ => VUndefined | None => VNull end), this') ∧
           (vacant this s → delete k (Some p) this = (Return true, this')).
Proof.
  intros Hk _. exists (written this s VUndefined JNull).
  split; [by rewrite (set_read _ _ _ _ _ Hk)|]. split; [|split; [|split]].
  - unfold stored, written. simpl. apply lookup_insert_eq.
  - intros m Hm. unfold mirror, written. simpl. rewrite Hm. simpl. apply lookup_insert_eq.
  - rewrite (get_read _ _ _ _ Hk), read_written. by destruct (map this).
  - intros Hv. by rewrite (delete_path_read _ _ _ _ Hk), (read_vacant _ _ Hv).
Qed.

Lemma undefined_is_written_as_null_witness :
  ∃ this', set (KStr "z") VUndefined None (mirrored {["k" := JNum 1]}) = (Return (), this') ∧
           stored this' "z" = Some JNull ∧
           (∀ m, map (mirrored {["k" := JNum 1]}) = Some m →
                 mirror this' "z" = Some VUndefined) ∧
           get (KStr "z") None this' =
             (Return (match map (mirrored {["k" := JNum 1]}) with
                      | Some _ => VUndefined
                      | None => VNull
                      end), this') ∧
           (vacant (mirrored {["k" := JNum 1]}) "z" →
            delete (KStr "z") (Some ["a"; "b"]) (mirrored {["k" := JNum 1]}) =
              (Return true, this')).
Proof.
  apply (undefined_is_written_as_null (mirrored {["k" := JNum 1]}) (KStr "z") "z" ["a"; "b"]);
    reflexivity.
Defined.

Lemma own_not_in (a : string) (ps : list (string * value)) :
  a ∉ ps.*1 → Lodash.own a ps = None.
Proof.
  induction ps as [|[k0 y] ps IH]; simpl; [done|].
  intros Hn. apply not_elem_of_cons in Hn as [Hne Hn].
  rewrite (proj2 (String.eqb_neq a k0)) by done. by apply IH.
Qed.

Lemma own_remove (a : string) (ps : list (string * value)) :
  NoDup ps.*1 → Lodash.own a (Lodash.remove a ps) = None.
Proof.
  induction ps as [|[k0 y] ps IH]; simpl; [done|].
  intros Hnd. apply NoDup_cons in Hnd as [Hn Hnd].
  destruct (String.eqb a k0) eqn:E.
  - apply String.eqb_eq in E as ->. by apply own_not_in.
  - simpl. rewrite E. by apply IH.
Qed.

Lemma own_remove_ne (a b : string) (ps : list (string * value)) :
  a ≠ b → Lodash.own b (Lodash.remove a ps) = Lodash.own b ps.
Proof.
  intros Hne. induction ps as [|[k0 y] ps IH]; simpl; [done|].
  destruct (String.eqb a k0) eqn:E.
  - apply String.eqb_eq in E as <-. by rewrite (proj2 (String.eqb_neq b a)).
  - simpl. by rewrite IH.
Qed.

Lemma remove_parse_members (a : string) (ms : list (string * json)) :
  ∃ ms', Lodash.remove a (parse_members ms) = parse_members ms'.
Proof.
  induction ms as [|[k0 j0] ms [ms' IH]]; simpl; [by exists []|].
  destruct (String.eqb a k0); [by exists ms|].
  exists ((k0, j0) :: ms'). simpl. by rewrite IH.
Qed.

Lemma parse_members_keys (ms : list (string * json)) : (parse_members ms).*1 = ms.*1.
Proof.
  unfold parse_members. induction ms as [|[k0 j0] ms IH]; simpl; [done|]. by f_equal.
Qed.

(** [delete(K, a)] on a key that holds an object removes the property [a]
    and nothing else: it returns true, afterwards [get(K, a)] is undefined
    and every path that starts with another property reads as before,
    with and without the mirror.  The key is a text or a safe integer and
    [a] an own accessor; the object is one JavaScript can hold: its
    property names are distinct. *)
Theorem delete_property_only (this : Base) (k : key) (s a : string)
    (ms : list (string * json)) :
  key_text k = Some s → safe_key k = true → own_accessor a = true →
  holds this s (JObj ms) → NoDup ms.*1 →
  ∃ this', delete k (Some [a]) this = (Return true, this') ∧
           get k (Some [a]) this' = (Return VUndefined, this') ∧
           ∀ b q, a ≠ b →
                  (get k (Some (b :: q)) this').1 = (get k (Some (b :: q)) this).1.
Proof.
  intros Hk _ _ Hh Hnd. rewrite (delete_path_read _ _ _ _ Hk), (read_holds _ _ _ Hh).
  change (JSON_parse (JObj ms)) with (VObj (parse_members ms)).
  cbn [Lodash.unset isNil Lodash.baseUnset Lodash.delete_prop fst snd].
  destruct (remove_parse_members a ms) as [ms' Hms'].
  assert (NoDup (parse_members ms).*1) as Hnd' by (by rewrite parse_members_keys).
  pose proof (own_remove a _ Hnd') as Hgone.
  pose proof (λ b, own_remove_ne a b (parse_members ms)) as Hkept.
  rewrite Hms' in *. cbn [JSON_stringify]. rewrite members_parse.
  change (column (Some ?d)) with d.
  eexists. split; [done|].
  assert (read (written this s (VObj (parse_members ms')) (JObj ms')) s =
          VObj (parse_members ms')) as Hr.
  { rewrite read_written. by destruct (map this). }
  split.
  - rewrite (get_read _ _ _ _ Hk), Hr. unfold Lodash.get, Lodash.baseGet.
    cbn [isNil Lodash.walk Lodash.prop]. by rewrite Hgone.
  - intros b q Hne. rewrite !(get_read _ _ _ _ Hk), Hr, (read_holds _ _ _ Hh).
    change (JSON_parse (JObj ms)) with (VObj (parse_members ms)).
    unfold Lodash.get, Lodash.baseGet. cbn [isNil Lodash.walk Lodash.prop fst].
    by rewrite (Hkept b Hne).
Qed.

Lemma delete_property_only_witness :
  ∃ this', delete (KStr "u") (Some ["score"])
             (mirrored {["u" := JObj [("name", JStr "Ann"); ("score", JNum 5)]]}) =
             (Return true, this') ∧
           get (KStr "u") (Some ["score"]) this' = (Return VUndefined, this') ∧
           ∀ b q, "score" ≠ b →
                  (get (KStr "u") (Some (b :: q)) this').1 =
                  (get (KStr "u") (Some (b :: q))
                     (mirrored {["u" := JObj [("name", JStr "Ann"); ("score", JNum 5)]]})).1.
Proof.
  apply (delete_property_only
           (mirrored {["u" := JObj [("name", JStr "Ann"); ("score", JNum 5)]]})
           (KStr "u") "u" "score" [("name", JStr "Ann"); ("score", JNum 5)]).
  - reflexivity.
  - reflexivity.
  - reflexivity.
  - split; [reflexivity|]. intros m Hm. injection Hm as <-. reflexivity.
  - apply NoDup_cons. split; [|apply NoDup_singleton].
    intros H. apply list_elem_of_singleton in H. discriminate H.
Defined.

Lemma stringify_elements_parse (js : list json) :
  (λ e, default JNull (JSON_stringify e)) <$> (JSON_parse <$> js) = js.
Proof.
  induction js as [|j js IH]; [done|]. cbn [fmap list_fmap].
  rewrite JSON_stringify_parse. cbn [default]. f_equal. apply IH.
Qed.

(** [delete(K, i)] on a key that holds a sequence returns true and moves
    nothing: the sequence keeps its length and its other elements, and
    position [i] becomes a hole, which reads undefined from the mirror and
    is written, and read back from the table, as null. *)
Theorem delete_index_keeps_positions (this : Base) (k : key) (s i : string) (n : nat)
    (js : list json) :
  key_text k = Some s → holds this s (JArr js) → Lodash.array_index i = Some n →
  ∃ this', delete k (Some [i]) this = (Return true, this') ∧
           stored this' s = Some (JArr (<[n := JNull]> js)) ∧
           get k None this' =
             (Return (VArr (<[n := match map this with
                                   | Some _ => VUndefined
                                   | None => VNull
                                   end]> (JSON_parse <$> js))), this').
Proof.
  intros Hk Hh Hi. rewrite (delete_path_read _ _ _ _ Hk), (read_holds _ _ _ Hh).
  change (JSON_parse (JArr js)) with (VArr (JSON_parse <$> js)).
  cbn [Lodash.unset isNil Lodash.baseUnset Lodash.delete_prop]. rewrite Hi.
  cbn [fst snd JSON_stringify]. change (column (Some ?d)) with d.
  change (List.map ?f ?l) with (f <$> l).
  rewrite list_fmap_insert, stringify_elements_parse. cbn [default JSON_stringify].
  eexists. split; [done|]. split.
  - unfold stored, written. simpl. apply lookup_insert_eq.
  - rewrite (get_read _ _ _ _ Hk), read_written. destruct (map this); [done|].
    change (JSON_parse (JArr ?l)) with (VArr (JSON_parse <$> l)).
    by rewrite list_fmap_insert.
Qed.

Lemma delete_index_keeps_positions_witness :
  ∃ this', delete (KStr "t") (Some ["0"]) (direct {["t" := JArr [JStr "x"; JStr "y"]]}) =
             (Return true, this') ∧
           stored this' "t" = Some (JArr (<[0%nat := JNull]> [JStr "x"; JStr "y"])) ∧
           get (KStr "t") None this' =
             (Return (VArr (<[0%nat := VNull]> (JSON_parse <$> [JStr "x"; JStr "y"]))), this').
Proof.
  apply (delete_index_keeps_positions (direct {["t" := JArr [JStr "x"; JStr "y"]]}) (KStr "t")
           "t" "0" 0 [JStr "x"; JStr "y"]); try reflexivity.
  split; [reflexivity|]. intros m Hm. discriminate Hm.
Defined.

(** ** [deleteAll] and [indices] *)

(** [deleteAll] returns and leaves nothing: no key in [indices], undefined
    for every [get] on a text or numeric key, an empty table and a mirror,
    if there is one, that agrees with it. *)
Theorem deleteAll_leaves_nothing (this : Base) :
  ∃ this', deleteAll this = (Return (), this') ∧
           indices this' = ∅ ∧ database this' = ∅ ∧ mirror_agrees this' ∧
           ∀ k s p, key_text k = Some s → get k p this' = (Return VUndefined, this').
Proof.
  eexists. split; [reflexivity|]. simpl. split; [|split; [done|split]].
  - unfold indices. simpl. destruct (map this); simpl; apply dom_empty_L.
  - intros m Hm s. simpl in *. destruct (map this); simpl in Hm; [|discriminate].
    injection Hm as <-. by rewrite !lookup_empty.
  - intros k s p Hk. rewrite (get_read _ _ _ _ Hk).
    assert (read {| database := ∅; map := (λ _, ∅) <$> map this |} s = VUndefined) as ->.
    { unfold read. simpl. destruct (map this); simpl; by rewrite lookup_empty. }
    destruct p; [|done]. by rewrite get_Nil.
Qed.

Lemma deleteAll_leaves_nothing_witness :
  ∃ this', deleteAll (mirrored {["a" := JNum 1; "b" := JNull]}) = (Return (), this') ∧
           indices this' = ∅ ∧ database this' = ∅ ∧ mirror_agrees this' ∧
           ∀ k s p, key_text k = Some s → get k p this' = (Return VUndefined, this').
Proof. exact (deleteAll_leaves_nothing (mirrored {["a" := JNum 1; "b" := JNull]})). Defined.

(** [indices] follows the calls: the constructor lists the keys of the
    rows, a completed [set] adds the text of its key, and [delete(K)]
    removes it, with and without the mirror. *)
Theorem indices_follow_calls (this this' : Base) (k : key) (s : string) (v : value)
    (p : option Lodash.path) :
  key_text k = Some s →
  (set k v p this = (Return (), this') → indices this' = {[s]} ∪ indices this) ∧
  indices (delete k None this).2 = indices this ∖ {[s]} ∧
  (∀ rows options, indices (new rows options) = dom rows).
Proof.
  intros Hk. split; [|split].
  - rewrite (set_read _ _ _ _ _ Hk). destruct (to_store this s v p) as [vo|]; [|discriminate].
    intros [= <-].
    unfold indices, written. simpl. destruct (map this); simpl; apply dom_insert_L.
  - rewrite (delete_read _ _ _ Hk). unfold indices, erased. simpl.
    destruct (map this); simpl; apply dom_delete_L.
  - intros rows options. unfold indices, new.
    destruct (options ≫= inMemory) as [[|]|]; simpl; by rewrite ?dom_fmap_L.
Qed.

Lemma indices_follow_calls_witness :
  indices (set (KNum 2) (VStr "two") None (mirrored {["1" := JStr "one"]})).2 =
    {["2"]} ∪ indices (mirrored {["1" := JStr "one"]}) ∧
  indices (delete (KNum 1) None (mirrored {["1" := JStr "one"]})).2 =
    indices (mirrored {["1" := JStr "one"]}) ∖ {["1"]}.
Proof.
  split.
  - apply (indices_follow_calls (mirrored {["1" := JStr "one"]}) _ (KNum 2) "2" (VStr "two")
             None eq_refl).
    vm_compute. reflexivity.
  - apply (indices_follow_calls (mirrored {["1" := JStr "one"]})
             (mirrored {["1" := JStr "one"]}) (KNum 1) "1" VNull None eq_refl).
Defined.

(** ** [set] with a path writes there and only there *)

(** [set(K, L, P)] on a key that holds a container, null or nothing
    returns and writes at [P]: [get(K, P)] reads [L] afterwards, with and without the
    mirror; and it writes only there: on an instance in which no object is
    shared, every sibling location reads what it read before the call.
    The key is a text or a safe integer, [L] a Value with finite numbers,
    and [P] a non-empty path of own accessors on which the sequences of
    the stored Value are addressed by indices. *)
Theorem set_path_writes_only_there (this : Base) (k : key) (s : string)
    (p : Lodash.path) (L : value) :
  key_text k = Some s → safe_key k = true → plain L = true →
  p ≠ [] → own_path p →
  Lodash.isObject (root_for_set this s) = true → indexed (root_for_set this s) p = true →
  ∃ this', set k L (Some p) this = (Return (), this') ∧
           get k (Some p) this' = (Return L, this') ∧
           (unshared this →
            ∀ q, apart (root_for_set this s) p q →
                 (get k (Some q) this').1 = (get k (Some q) this).1).
Proof.
  intros Hk _ HL Hp Hown Hroot Hi.
  destruct (set_path_returns this k s p L Hk Hroot Hown Hi) as [this' Hset].
  exists this'. split; [done|]. split.
  - destruct (plain_parse L HL) as [l ->].
    by apply (set_path_then_get this this' k s p l Hk Hp (own_path_safe _ Hown) Hroot).
  - intros _ q Hap.
    pose proof (set_path_frame this this' k s p q L Hk Hroot Hset Hap) as Hf.
    apply (f_equal fst) in Hf. simpl in Hf. refine (eq_trans Hf _).
    rewrite (get_read _ _ _ _ Hk). simpl. by rewrite root_for_set_read.
Qed.

Lemma set_path_writes_only_there_witness :
  ∃ this', set (KStr "user:1") (VNum 5) (Some ["score"])
             (direct {["user:1" := JObj [("name", JStr "Ann"); ("score", JNum 0)]]}) =
             (Return (), this') ∧
           get (KStr "user:1") (Some ["score"]) this' = (Return (VNum 5), this') ∧
           (unshared (direct {["user:1" := JObj [("name", JStr "Ann"); ("score", JNum 0)]]}) →
            ∀ q, apart (root_for_set
                          (direct {["user:1" := JObj [("name", JStr "Ann"); ("score", JNum 0)]]})
                          "user:1") ["score"] q →
                 (get (KStr "user:1") (Some q) this').1 =
                 (get (KStr "user:1") (Some q)
                    (direct {["user:1" := JObj [("name", JStr "Ann"); ("score", JNum 0)]]})).1).
Proof.
  apply (set_path_writes_only_there
           (direct {["user:1" := JObj [("name", JStr "Ann"); ("score", JNum 0)]]})
           (KStr "user:1") "user:1" ["score"] (VNum 5)); try reflexivity.
  - done.
  - by repeat constructor.
Defined.

Lemma modes_agree_on_whole_values_witness :
  observably_equivalent {["a" := JNum 0]}
    [Ensure (KStr "a") (JSON_parse (JNum 3)) None; Set_ (KNum 7) (JSON_parse (JArr [])) None;
     Delete (KStr "a") None; Get (KStr "7") None; Indices; DeleteAll; Get (KStr "7") None].
Proof.
  apply (modes_agree_on_whole_values {["a" := JNum 0]}).
  repeat (apply Forall_cons; split); try apply Forall_nil; simpl; try done.
  all: repeat split; eauto.
  - by exists (JNum 3).
  - by exists (JArr []).
Defined.

(** ** [set] creates the containers on its way *)

Lemma array_index_is_index (i : string) (n : nat) :
  Lodash.array_index i = Some n → Lodash.isIndex i = true ∧ Lodash.unsafe_key i = false.
Proof.
  unfold Lodash.array_index, Lodash.isIndex. intros H. split.
  - destruct (Lodash.reIsUint i) as [m|]; [|discriminate].
    destruct (m <? 4294967295)%N eqn:E; [|discriminate].
    apply N.ltb_lt in E. apply N.ltb_lt. unfold Lodash.MAX_SAFE_INTEGER. lia.
  - unfold Lodash.unsafe_key.
    destruct (String.eqb_spec i "__proto__") as [->|_]; [discriminate H|].
    destruct (String.eqb_spec i "constructor") as [->|_]; [discriminate H|].
    destruct (String.eqb_spec i "prototype") as [->|_]; [discriminate H|done].
Qed.

Lemma stringify_holes (n : nat) (l : json) :
  List.map (λ e, default JNull (JSON_stringify e)) (replicate n VUndefined ++ [JSON_parse l])%list
  = (replicate n JNull ++ [l])%list.
Proof.
  induction n as [|n IH]; simpl.
  - by rewrite JSON_stringify_parse.
  - by rewrite IH.
Qed.

Lemma parse_nulls (n : nat) (l : json) :
  List.map JSON_parse (replicate n JNull ++ [l])%list = (replicate n VNull ++ [JSON_parse l])%list.
Proof. induction n as [|n IH]; simpl; [done|]. by rewrite IH. Qed.

(** On a key that has no Entry, [set(K, L, 'a.i')] with an own accessor
    [a] and an index [i] makes [a] a sequence with [L] at position [i]:
    the positions before it are holes, which read undefined from the
    mirror and are written, and read back from the table, as null.  The
    key is a text or a safe integer. *)
Theorem set_path_creates_sequence (this : Base) (k : key) (s a i : string) (n : nat)
    (L : json) :
  key_text k = Some s → safe_key k = true → vacant this s →
  own_accessor a = true → Lodash.array_index i = Some n →
  ∃ this', set k (JSON_parse L) (Some [a; i]) this = (Return (), this') ∧
           stored this' s = Some (JObj [(a, JArr (replicate n JNull ++ [L])%list)]) ∧
           get k (Some [a]) this' =
             (Return (VArr (replicate n (match map this with
                                         | Some _ => VUndefined
                                         | None => VNull
                                         end) ++ [JSON_parse L])%list), this').
Proof.
  intros Hk _ Hv Ha Hi. destruct (array_index_is_index _ _ Hi) as [Hidx Hsafe].
  apply own_accessor_safe in Ha.
  rewrite (set_read _ _ _ _ _ Hk). unfold to_store. rewrite (read_vacant _ _ Hv).
  cbn [isNil Lodash.set Lodash.baseSet Lodash.isObject Lodash.baseSet_loop].
  rewrite Ha, Hsafe. cbn [Lodash.prop Lodash.own default Lodash.isObject].
  rewrite Hidx. cbn [Lodash.assignValue]. rewrite Hi.
  unfold Lodash.put_elem. cbn [length Nat.ltb Nat.leb Lodash.put app].
  rewrite Nat.sub_0_r.
  cbn [JSON_stringify members_with]. rewrite stringify_holes.
  change (column (Some ?d)) with d.
  eexists. split; [reflexivity|]. split.
  - unfold stored, written. simpl. apply lookup_insert_eq.
  - rewrite (get_read _ _ _ _ Hk), read_written. f_equal. f_equal.
    destruct (map this).
    + unfold Lodash.get, Lodash.baseGet. simpl. by rewrite String.eqb_refl.
    + cbn [JSON_parse List.map fst snd]. rewrite parse_nulls.
      unfold Lodash.get, Lodash.baseGet. simpl. by rewrite String.eqb_refl.
Qed.

Lemma set_path_creates_sequence_witness :
  ∃ this', set (KStr "k") (JSON_parse (JStr "x")) (Some ["tags"; "2"]) (direct ∅) =
             (Return (), this') ∧
           stored this' "k" = Some (JObj [("tags", JArr (replicate 2 JNull ++ [JStr "x"])%list)]) ∧
           get (KStr "k") (Some ["tags"]) this' =
             (Return (VArr (replicate 2 VNull ++ [JSON_parse (JStr "x")])%list), this').
Proof.
  apply (set_path_creates_sequence (direct ∅) (KStr "k") "k" "tags" "2" 2 (JStr "x"));
    try reflexivity.
  split; [reflexivity|]. intros m Hm. discriminate Hm.
Defined.

(** * Properties of the earlier classes *)

(** ** The JavaScript class and the current one *)

Lemma legacy_get_read (L : Legacy.Base) (k : key) (s : string) (p : option Lodash.path) :
  key_text k = Some s →
  Legacy.get k p L =
    (Return (match p with
             | Some p => Lodash.get (read (as_mirrored L) s) p
             | None => read (as_mirrored L) s
             end), L).
Proof. intros Hk. destruct k; try discriminate; injection Hk as <-; by destruct p. Qed.

Lemma legacy_set_read (L : Legacy.Base) (k : key) (s : string) (v : value)
    (p : option Lodash.path) :
  key_text k = Some s →
  Legacy.set k v p L =
    match to_store (as_mirrored L) s v p with
    | None => (Throw Unmodelled, L)
    | Some vo =>
        (Return (), {| Legacy.db := <[s := column (JSON_stringify vo)]> (Legacy.db L);
                       Legacy.entries := <[s := vo]> (Legacy.entries L) |})
    end.
Proof.
  intros Hk. unfold to_store.
  change (read (as_mirrored L) s) with (default VUndefined (Legacy.entries L !! s)).
  destruct k; try discriminate; injection Hk as <-.
  all: unfold Legacy.set, Legacy.toString, mbind, Legacy.M_bind, Legacy.super_get; simpl.
  all: destruct p as [p|]; simpl.
  all: try (destruct (Lodash.set _ p v) as [vo|]; simpl; [|done]).
  all: reflexivity.
Qed.

(** On an instance with the mirror the current [set] does what the [set] of
    the JavaScript class does, for every primitive key (a text, a number,
    a boolean, null or undefined), every value and every path, and the
    current [get] reads what its [get] reads, for every such key but a
    boolean. *)
Theorem set_get_as_legacy (L : Legacy.Base) (k : key) (v : value) (p : option Lodash.path) :
  (∃ L', Legacy.set k v p L = ((set k v p (as_mirrored L)).1, L') ∧
         as_mirrored L' = (set k v p (as_mirrored L)).2) ∧
  ((∀ b, k ≠ KBool b) → Legacy.get k p L = ((get k p (as_mirrored L)).1, L)).
Proof.
  destruct (key_text k) as [s|] eqn:Hk.
  - rewrite (legacy_set_read _ _ _ _ _ Hk), (set_read _ _ _ _ _ Hk).
    rewrite (legacy_get_read _ _ _ _ Hk), (get_read _ _ _ _ Hk). split; [|done].
    destruct (to_store (as_mirrored L) s v p) as [vo|]; [|by exists L]. eauto.
  - split.
    + exists L. by destruct k.
    + intros Hb. destruct k as [| |b| |]; try discriminate; try done. by destruct (Hb b).
Qed.

Lemma set_get_as_legacy_witness :
  (∃ L', Legacy.set (KNum 7) (VStr "x") (Some ["tags"; "1"])
           {| Legacy.db := {["7" := JObj [("tags", JArr [])]]};
              Legacy.entries := {["7" := VObj [("tags", VArr [])]]} |} =
           ((set (KNum 7) (VStr "x") (Some ["tags"; "1"])
               (as_mirrored {| Legacy.db := {["7" := JObj [("tags", JArr [])]]};
                               Legacy.entries := {["7" := VObj [("tags", VArr [])]]} |})).1,
            L') ∧
         as_mirrored L' =
           (set (KNum 7) (VStr "x") (Some ["tags"; "1"])
              (as_mirrored {| Legacy.db := {["7" := JObj [("tags", JArr [])]]};
                              Legacy.entries := {["7" := VObj [("tags", VArr [])]]} |})).2) ∧
  Legacy.get (KNum 7) (Some ["tags"])
    {| Legacy.db := {["7" := JObj [("tags", JArr [])]]};
       Legacy.entries := {["7" := VObj [("tags", VArr [])]]} |} =
    ((get (KNum 7) (Some ["tags"])
        (as_mirrored {| Legacy.db := {["7" := JObj [("tags", JArr [])]]};
                        Legacy.entries := {["7" := VObj [("tags", VArr [])]]} |})).1,
     {| Legacy.db := {["7" := JObj [("tags", JArr [])]]};
        Legacy.entries := {["7" := VObj [("tags", VArr [])]]} |}).
Proof.
  split.
  - exact (proj1 (set_get_as_legacy
                    {| Legacy.db := {["7" := JObj [("tags", JArr [])]]};
                       Legacy.entries := {["7" := VObj [("tags", VArr [])]]} |}
                    (KNum 7) (VStr "x") (Some ["tags"; "1"]))).
  - refine (proj2 (set_get_as_legacy
                     {| Legacy.db := {["7" := JObj [("tags", JArr [])]]};
                        Legacy.entries := {["7" := VObj [("tags", VArr [])]]} |}
                     (KNum 7) (VStr "x") (Some ["tags"])) _).
    intros b. discriminate.
Defined.

(** ** [delete] with a path in the JavaScript class *)

Lemma walk_scalar_not_object (q : Lodash.path) (v : value) :
  Lodash.isObject v = false → q ≠ [] → Lodash.isObject (Lodash.walk v q) = false.
Proof.
  revert v. induction q as [|k q IH]; intros v Hv Hq; [done|]. simpl.
  destruct (isNil v); [done|].
  pose proof (prop_scalar_not_object v k Hv) as Hp.
  destruct q as [|k' q]; [done|]. by apply IH.
Qed.

Lemma assignValue_along (nested : value) (k : string) (x : value) :
  Lodash.isObject nested = true → Lodash.isObject (Lodash.prop nested k) = true →
  ∃ r, Lodash.assignValue nested k x = Some r.
Proof.
  destruct nested as [| | | | | | | |es|ps]; try discriminate; intros _; simpl; [|eauto].
  destruct (Lodash.array_index k); [eauto|]. by destruct (String.eqb k "length").
Qed.

(** [_.set] succeeds along a path that leads to a container. *)
Lemma baseSet_loop_along (q : Lodash.path) (nested x : value) :
  Lodash.isObject nested = true → q ≠ [] → safe_path q →
  Lodash.isObject (Lodash.walk nested q) = true →
  ∃ r, Lodash.baseSet_loop nested q x = Some r.
Proof.
  revert nested. induction q as [|k q IH]; intros nested Hn Hq Hs; [done|].
  apply Forall_cons in Hs as [Hk Hs]. simpl. rewrite Hk, (isObject_not_nil _ Hn).
  destruct q as [|next q'].
  - simpl. intros Hp. by apply assignValue_along.
  - intros Hw.
    destruct (Lodash.isObject (Lodash.prop nested k)) eqn:Hp.
    + destruct (IH _ Hp ltac:(done) Hs Hw) as [child ->]. by apply assignValue_along.
    + by rewrite (walk_scalar_not_object _ _ Hp) in Hw.
Qed.

(** In the JavaScript class, [delete(K, P)] whose path ends with an index
    into a sequence splices the element out: the call returns, the
    sequence found at the parent path is afterwards the old one without
    that element, the later elements moved one place to the left, and the
    row is the text of the new Value. *)
Theorem legacy_delete_splices_element (L : Legacy.Base) (k : key) (s : string)
    (root : value) (q : Lodash.path) (i : string) (n : N) (es : list value) :
  key_text k = Some s → Legacy.entries L !! s = Some root →
  safe_path q → at_path root q = VArr es → Lodash.reIsUint i = Some n →
  ∃ L' root', Legacy.delete_path k (q ++ [i])%list L = (Return (), L') ∧
              Legacy.entries L' !! s = Some root' ∧
              at_path root' q = VArr (take (N.to_nat n) es ++ drop (S (N.to_nat n)) es)%list ∧
              Legacy.db L' !! s = JSON_stringify root'.
Proof.
  intros Hk Hroot Hs Hat Hi.
  set (es' := (take (N.to_nat n) es ++ drop (S (N.to_nat n)) es)%list).
  assert (read (as_mirrored L) s = root) as Hread.
  { unfold read, as_mirrored. simpl. by rewrite Hroot. }
  assert (∃ root', (match q with
                    | [] => Some (VArr es')
                    | _ => Lodash.set root q (VArr es')
                    end) = Some root' ∧ at_path root' q = VArr es' ∧
                   Lodash.isObject root' = true) as (root' & Hset & Hat' & Hobj).
  { destruct q as [|k0 q]; [by exists (VArr es')|].
    unfold at_path, Lodash.get, Lodash.baseGet in Hat.
    destruct (isNil root) eqn:Hnil; [discriminate|].
    assert (Lodash.isObject root = true) as Hro.
    { destruct (Lodash.isObject root) eqn:E; [done|].
      pose proof (walk_scalar_not_object (k0 :: q) root E ltac:(done)) as H.
      by rewrite Hat in H. }
    destruct (baseSet_loop_along (k0 :: q) root (VArr es') Hro ltac:(done) Hs) as [r Hr].
    { by rewrite Hat. }
    exists r. unfold Lodash.set, Lodash.baseSet. rewrite Hnil, Hro. split; [done|].
    destruct (walk_baseSet_loop (k0 :: q) root (VArr es') r Hro ltac:(done) Hs Hr) as [Hw Ho].
    split; [|done]. unfold at_path, Lodash.get, Lodash.baseGet.
    by rewrite (isObject_not_nil _ Ho). }
  destruct (stringify_object _ Hobj) as [d Hd].
  exists {| Legacy.db := <[s := d]> (Legacy.db L);
            Legacy.entries := <[s := root']> (Legacy.entries L) |}, root'.
  split; [|split; [apply lookup_insert_eq|split; [done|]]].
  - unfold Legacy.delete_path, mbind, Legacy.M_bind at 1.
    rewrite (legacy_get_read _ _ _ _ Hk), Hread.
    rewrite fmap_app. change (Some <$> [i]) with [Some i].
    rewrite last_last, removelast_last.
    fold (at_path root q). rewrite Hat. cbn [Legacy.splice]. rewrite Hi. fold es'.
    unfold Legacy.M_bind at 1. cbn [mret Legacy.M_ret].
    assert ((match q with
             | [] => mret (VArr es')
             | _ :: _ => Legacy.lodash (Lodash.set root q (VArr es'))
             end : Legacy.M value) L = (Return root', L)) as Hdata.
    { destruct q; simpl in Hset; [by injection Hset as <-|]. by rewrite Hset. }
    unfold Legacy.M_bind. rewrite Hdata.
    rewrite (legacy_set_read _ _ _ _ _ Hk). simpl. by rewrite Hd.
  - simpl. by rewrite lookup_insert_eq, Hd.
Qed.

Lemma legacy_delete_splices_element_witness :
  ∃ L' root',
    Legacy.delete_path (KStr "u") (["tags"] ++ ["1"])%list
      {| Legacy.db := ∅;
         Legacy.entries :=
           {["u" := VObj [("tags", VArr [VStr "a"; VStr "b"; VStr "c"])]]} |} =
      (Return (), L') ∧
    Legacy.entries L' !! "u" = Some root' ∧
    at_path root' ["tags"] =
      VArr (take (N.to_nat 1) [VStr "a"; VStr "b"; VStr "c"] ++
            drop (S (N.to_nat 1)) [VStr "a"; VStr "b"; VStr "c"])%list ∧
    Legacy.db L' !! "u" = JSON_stringify root'.
Proof.
  apply (legacy_delete_splices_element _ (KStr "u") "u"
           (VObj [("tags", VArr [VStr "a"; VStr "b"; VStr "c"])]) ["tags"] "1" 1%N).
  - reflexivity.
  - reflexivity.
  - by repeat constructor.
  - reflexivity.
  - reflexivity.
Defined.

(** ** The first TypeScript class *)


Lemma legacy_bind_Return {A B : Type} (m : Legacy.M A) (f : A → Legacy.M B)
    (this this' : Legacy.Base) (a : A) :
  m this = (Return a, this') → (m ≫= f) this = f a this'.
Proof. intros H. unfold mbind, Legacy.M_bind. by rewrite H. Qed.

Lemma early_get_read (this : Legacy.Base) (k : key) (s : string) (p : option Lodash.path) :
  key_text k = Some s →
  Early.get k p this =
    (Return (match p with
             | Some p => Lodash.get (default VUndefined (Legacy.entries this !! s)) p
             | None => default VUndefined (Legacy.entries this !! s)
             end), this).
Proof. intros Hk. destruct k; try discriminate; injection Hk as <-; by destruct p. Qed.

Lemma early_set_whole (this : Legacy.Base) (k : key) (s : string) (v : value) :
  key_text k = Some s →
  Early.set k v None this =
    (Return (), {| Legacy.db := <[s := column (JSON_stringify v)]> (Legacy.db this);
                   Legacy.entries := <[s := v]> (Legacy.entries this) |}).
Proof.
  intros Hk. destruct k; try discriminate; injection Hk as <-.
  all: reflexivity.
Qed.

Lemma early_set_path_read (this : Legacy.Base) (k : key) (s : string) (v : value)
    (p : Lodash.path) :
  key_text k = Some s →
  Early.set k v (Some p) this =
    let data := default VUndefined (Legacy.entries this !! s) in
    (Return (), {| Legacy.db := <[s := column (JSON_stringify data)]> (Legacy.db this);
                   Legacy.entries := <[s := data]> (Legacy.entries this) |}).
Proof.
  intros Hk. assert (Legacy.toString k = s) as Hs by (destruct k; simpl in *; congruence).
  unfold Early.set. rewrite Hs.
  assert (match k with KStr _ | KNum _ => True | _ => False end) by (by destruct k).
  destruct k; try done.
  all: unfold mbind, Legacy.M_bind, Early.super_get; simpl.
  all: destruct (Legacy.entries this !! s) as [x|]; simpl; [|done].
  all: destruct (isNil x) eqn:E; simpl; [|done].
  all: unfold Lodash.set; by rewrite E.
Qed.

Lemma early_get_default (this this' : Legacy.Base) (k : key) (p : option Lodash.path) :
  (∀ s, default VUndefined (Legacy.entries this' !! s) =
        default VUndefined (Legacy.entries this !! s)) →
  (Early.get k p this').1 = (Early.get k p this).1.
Proof.
  intros He. destruct k; simpl; try done.
  all: destruct p; unfold mbind, Legacy.M_bind, Early.super_get; simpl; by rewrite ?He.
Qed.

(** In the first TypeScript class [set] with a path never stores the
    Leaf: for every key, value and path, every [get] reads afterwards what
    it read before; on a text or safe-integer key the call returns, and it
    writes the row and the entry of the key again from what the [Map] held
    (undefined, hence a [NULL] row, when it held nothing). *)
Theorem early_set_path_stores_nothing (this : Legacy.Base) (k : key) (v : value)
    (p : Lodash.path) :
  (∀ k' p', (Early.get k' p' (Early.set k v (Some p) this).2).1 = (Early.get k' p' this).1) ∧
  (∀ s, key_text k = Some s → safe_key k = true →
        ∃ this', Early.set k v (Some p) this = (Return (), this') ∧
                 Legacy.entries this' !! s =
                   Some (default VUndefined (Legacy.entries this !! s)) ∧
                 Legacy.db this' !! s =
                   Some (column (JSON_stringify
                                   (default VUndefined (Legacy.entries this !! s))))).
Proof.
  split.
  - intros k' p'. apply early_get_default. intros s'.
    destruct (key_text k) as [s|] eqn:Hk; [|by destruct k].
    rewrite (early_set_path_read _ _ _ _ _ Hk). simpl.
    destruct (decide (s = s')) as [<-|Hne].
    + by rewrite lookup_insert_eq.
    + by rewrite lookup_insert_ne.
  - intros s Hk _. rewrite (early_set_path_read _ _ _ _ _ Hk). simpl.
    eexists. split; [done|]. simpl. by rewrite !lookup_insert_eq.
Qed.

Lemma early_set_path_stores_nothing_witness :
  ∃ this', Early.set (KStr "k") (VNum 1) (Some ["a"]) legacy_empty = (Return (), this') ∧
           Legacy.entries this' !! "k" =
             Some (default VUndefined (Legacy.entries legacy_empty !! "k")) ∧
           Legacy.db this' !! "k" =
             Some (column (JSON_stringify
                             (default VUndefined (Legacy.entries legacy_empty !! "k")))).
Proof.
  apply (proj2 (early_set_path_stores_nothing legacy_empty (KStr "k") (VNum 1) ["a"]) "k");
    reflexivity.
Defined.



(** ** [ensure] in the JavaScript class and in the current one *)

Lemma get_empty_object (q : Lodash.path) : Lodash.get (VObj []) q = VUndefined.
Proof.
  unfold Lodash.get, Lodash.baseGet. destruct q as [|k q]; [done|]. simpl.
  apply walk_undefined.
Qed.

Lemma legacy_ensure_key_read (L : Legacy.Base) (k : key) (s : string) (d : value) :
  key_text k = Some s → isNil d = false →
  Legacy.ensure_key k d L =
    if truthy (read (as_mirrored L) s) then (Return (read (as_mirrored L) s), L)
    else (Legacy.set k d None ≫= λ _, mret d) L.
Proof.
  intros Hk Hd. unfold Legacy.ensure_key. rewrite Hd.
  unfold mbind at 1, Legacy.M_bind at 1. rewrite (legacy_get_read _ _ _ _ Hk).
  destruct (truthy _); [|done]. by rewrite (legacy_get_read _ _ _ _ Hk).
Qed.

(** The [ensure] of the JavaScript class, which with a path first ensures
    an empty object under the key, and the current [ensure] on an instance
    with the mirror do the same whenever the key holds nothing, null, or a
    truthy Value: they return or throw alike, and when they return they
    leave the same table and the same entries.  The key is a text or a
    safe integer, a path one of own accessors. *)
Theorem ensure_as_legacy (L : Legacy.Base) (k : key) (s : string) (d : value)
    (p : option Lodash.path) :
  key_text k = Some s → safe_key k = true →
  match p with Some q => own_path q | None => True end →
  isNil (read (as_mirrored L) s) = true ∨ truthy (read (as_mirrored L) s) = true →
  ∃ L', Legacy.ensure k d p L = ((ensure k d p (as_mirrored L)).1, L') ∧
        ∀ x, (ensure k d p (as_mirrored L)).1 = Return x →
             as_mirrored L' = (ensure k d p (as_mirrored L)).2.
Proof.
  intros Hk _ _ Hr. destruct (isNil d) eqn:Hd.
  { exists L. unfold ensure, Legacy.ensure, Legacy.ensure_key. rewrite Hd.
    split; [by destruct p|]. intros x. discriminate. }
  rewrite (ensure_read _ _ _ _ _ Hk Hd).
  assert (∀ L0 po, ∃ L', (Legacy.set k d po ≫= λ _, mret d) L0 =
                           (((set k d po ≫= λ _, mret d) (as_mirrored L0)).1, L') ∧
                         as_mirrored L' = ((set k d po ≫= λ _, mret d) (as_mirrored L0)).2)
    as Hset.
  { intros L0 po. unfold mbind, M_bind, Legacy.M_bind.
    rewrite (legacy_set_read _ _ _ _ _ Hk), (set_read _ _ _ _ _ Hk).
    destruct (to_store (as_mirrored L0) s d po) as [vo|]; [|by exists L0]. eauto. }
  destruct p as [q|]; simpl.
  - unfold Legacy.ensure. rewrite Hd. unfold mbind at 1, Legacy.M_bind at 1.
    rewrite (legacy_ensure_key_read L k s (VObj []) Hk eq_refl).
    destruct (truthy (read (as_mirrored L) s)) eqn:Ht.
    + unfold mbind at 1, Legacy.M_bind at 1. rewrite (legacy_get_read _ _ _ _ Hk).
      destruct (truthy (Lodash.get _ q)).
      * rewrite (legacy_get_read _ _ _ _ Hk). by exists L.
      * destruct (Hset L (Some q)) as (L' & -> & HL'). exists L'. by split.
    + destruct Hr as [Hnil|]; [|congruence].
      rewrite (get_Nil _ _ Hnil). simpl.
      set (L1 := {| Legacy.db := <[s := JObj []]> (Legacy.db L);
                    Legacy.entries := <[s := VObj []]> (Legacy.entries L) |}).
      assert ((Legacy.set k (VObj []) None ≫= λ _, mret (VObj [])) L =
              (Return (VObj []), L1)) as ->.
      { unfold mbind, Legacy.M_bind. by rewrite (legacy_set_read _ _ _ _ _ Hk). }
      assert (read (as_mirrored L1) s = VObj []) as Hr1.
      { unfold read, as_mirrored, L1. simpl. by rewrite lookup_insert_eq. }
      unfold mbind at 1, Legacy.M_bind at 1. rewrite (legacy_get_read _ _ _ _ Hk), Hr1.
      rewrite get_empty_object. simpl.
      unfold mbind, M_bind, Legacy.M_bind.
      rewrite (legacy_set_read _ _ _ _ _ Hk), (set_read _ _ _ _ _ Hk).
      unfold to_store. rewrite Hr1, Hnil. simpl.
      destruct (Lodash.set (VObj []) q d) as [vo|]; [|exists L1; by split].
      eexists. split; [done|]. intros x _. unfold as_mirrored, written, L1. simpl.
      by rewrite !insert_insert_eq.
  - unfold Legacy.ensure. rewrite (legacy_ensure_key_read _ _ _ _ Hk Hd).
    destruct (truthy (read (as_mirrored L) s)); [by exists L|].
    destruct (Hset L None) as (L' & -> & HL'). exists L'. by split.
Qed.

Lemma ensure_as_legacy_witness :
  ∃ L', Legacy.ensure (KStr "u") (VStr "x") (Some ["tags"; "0"]) legacy_empty =
          ((ensure (KStr "u") (VStr "x") (Some ["tags"; "0"]) (as_mirrored legacy_empty)).1, L') ∧
        ∀ x, (ensure (KStr "u") (VStr "x") (Some ["tags"; "0"]) (as_mirrored legacy_empty)).1 =
               Return x →
             as_mirrored L' =
               (ensure (KStr "u") (VStr "x") (Some ["tags"; "0"]) (as_mirrored legacy_empty)).2.
Proof.
  apply (ensure_as_legacy legacy_empty (KStr "u") "u" (VStr "x") (Some ["tags"; "0"]) eq_refl).
  - reflexivity.
  - by repeat constructor.
  - left. reflexivity.
Defined.

Lemma get_falsy_scalar (r : value) (q : Lodash.path) :
  isNil r = false → truthy r = false → truthy (Lodash.get r q) = false.
Proof.
  intros Hn Ht. unfold Lodash.get, Lodash.baseGet. rewrite Hn.
  destruct q as [|k q]; [done|].
  destruct r as [| |b|n|m e| | |s| |]; try discriminate; simpl.
  1-4: by rewrite walk_undefined.
  simpl in Ht. apply negb_false_iff, String.eqb_eq in Ht as ->.
  destruct (Lodash.array_index k) as [i|].
  - assert (String.get i EmptyString = None) as -> by (by destruct i).
    by rewrite walk_undefined.
  - destruct (String.eqb k "length"); [|by rewrite walk_undefined].
    destruct q as [|k' q]; [done|]. simpl. by rewrite walk_undefined.
Qed.

(** Where the two [ensure] part ways: on a key that holds a falsy Value
    that is not null (0, false, the empty text), [ensure(K, D, P)] of the
    current class returns [D] and leaves the mirror as it was, while the
    one of the JavaScript class returns [D] after replacing the Value by
    an object in which [get(K, P)] reads [D].  The key is a text or a safe
    integer and [P] a non-empty path of data accessors. *)
Theorem ensure_path_on_falsy_scalar (L : Legacy.Base) (k : key) (s : string)
    (r d : value) (q : Lodash.path) :
  key_text k = Some s → safe_key k = true → Legacy.entries L !! s = Some r →
  isNil r = false → truthy r = false → isNil d = false → q ≠ [] → data_path q →
  (∃ T', ensure k d (Some q) (as_mirrored L) = (Return d, T') ∧
         map T' = Some (Legacy.entries L)) ∧
  (∃ L', Legacy.ensure k d (Some q) L = (Return d, L') ∧
         Legacy.get k (Some q) L' = (Return d, L')).
Proof.
  intros Hk _ Hr Hn Ht Hd Hq Hdata.
  pose proof (data_path_own _ Hdata) as Hown.
  assert (read (as_mirrored L) s = r) as Hread.
  { unfold read, as_mirrored. simpl. by rewrite Hr. }
  split.
  - rewrite (ensure_read _ _ _ _ _ Hk Hd). simpl. rewrite Hread.
    rewrite (get_falsy_scalar _ _ Hn Ht).
    unfold mbind, M_bind. rewrite (set_read _ _ _ _ _ Hk). unfold to_store.
    rewrite Hread, Hn.
    assert (Lodash.set r q d = Some r) as ->.
    { unfold Lodash.set, Lodash.baseSet. rewrite Hn. by destruct r. }
    eexists. split; [done|]. simpl. by rewrite insert_id.
  - unfold Legacy.ensure. rewrite Hd.
    unfold mbind at 1, Legacy.M_bind at 1.
    rewrite (legacy_ensure_key_read L k s (VObj []) Hk eq_refl), Hread, Ht.
    set (L1 := {| Legacy.db := <[s := JObj []]> (Legacy.db L);
                  Legacy.entries := <[s := VObj []]> (Legacy.entries L) |}).
    assert ((Legacy.set k (VObj []) None ≫= λ _, mret (VObj [])) L =
            (Return (VObj []), L1)) as ->.
    { unfold mbind, Legacy.M_bind. by rewrite (legacy_set_read _ _ _ _ _ Hk). }
    assert (read (as_mirrored L1) s = VObj []) as Hr1.
    { unfold read, as_mirrored, L1. simpl. by rewrite lookup_insert_eq. }
    unfold mbind at 1, Legacy.M_bind at 1. rewrite (legacy_get_read _ _ _ _ Hk), Hr1.
    rewrite get_empty_object. simpl.
    unfold mbind, Legacy.M_bind. rewrite (legacy_set_read _ _ _ _ _ Hk).
    unfold to_store. rewrite Hr1. simpl.
    assert (∃ vo, Lodash.set (VObj []) q d = Some vo) as [vo Hvo].
    { unfold Lodash.set, Lodash.baseSet. simpl.
      apply baseSet_loop_defined; [done|done|].
      destruct q as [|a q]; [done|]. simpl. by apply indexed_scalar. }
    rewrite Hvo. eexists. split; [done|].
    rewrite (legacy_get_read _ _ _ _ Hk). f_equal. f_equal.
    unfold read, as_mirrored. simpl. rewrite lookup_insert_eq. simpl.
    by apply (get_set (VObj []) q d vo eq_refl Hq (own_path_safe _ Hown)).
Qed.

Lemma ensure_path_on_falsy_scalar_witness :
  (∃ T', ensure (KStr "k") (VStr "x") (Some ["a-b"; "0"])
           (as_mirrored {| Legacy.db := {["k" := JNum 0]};
                           Legacy.entries := {["k" := VNum 0]} |}) = (Return (VStr "x"), T') ∧
         map T' = Some (Legacy.entries {| Legacy.db := {["k" := JNum 0]};
                                          Legacy.entries := {["k" := VNum 0]} |})) ∧
  (∃ L', Legacy.ensure (KStr "k") (VStr "x") (Some ["a-b"; "0"])
           {| Legacy.db := {["k" := JNum 0]}; Legacy.entries := {["k" := VNum 0]} |} =
           (Return (VStr "x"), L') ∧
         Legacy.get (KStr "k") (Some ["a-b"; "0"]) L' = (Return (VStr "x"), L')).
Proof.
  apply (ensure_path_on_falsy_scalar
           {| Legacy.db := {["k" := JNum 0]}; Legacy.entries := {["k" := VNum 0]} |}
           (KStr "k") "k" (VNum 0) (VStr "x") ["a-b"; "0"]); try reflexivity; try done.
  by repeat constructor.
Defined.

(** In the first TypeScript class [ensure(K, D, P)] on a key that has no
    entry returns [D] without storing it: the entry becomes the empty
    object that the inner [ensure(K, {})] stores, and that is what
    [get(K)] reads afterwards, whatever the path was.  The key is a text
    or a safe integer. *)
Theorem early_ensure_path_stores_no_default (this : Legacy.Base) (k : key) (s : string)
    (d : value) (q : Lodash.path) :
  key_text k = Some s → safe_key k = true →
  Legacy.entries this !! s = None → isNil d = false →
  ∃ this', Early.ensure k d (Some q) this = (Return d, this') ∧
           Legacy.entries this' = <[s := VObj []]> (Legacy.entries this) ∧
           Early.get k None this' = (Return (VObj []), this').
Proof.
  intros Hk _ He Hd.
  set (this1 := {| Legacy.db := <[s := JObj []]> (Legacy.db this);
                   Legacy.entries := <[s := VObj []]> (Legacy.entries this) |}).
  assert (Legacy.entries this1 !! s = Some (VObj [])) as He1 by apply lookup_insert_eq.
  exists this1. split; [|split; [done|]].
  - unfold Early.ensure. rewrite Hd.
    rewrite (legacy_bind_Return _ _ _ _ _ (early_get_read this k s (Some q) Hk)).
    rewrite He. cbn [default]. rewrite get_Nil by done. cbn [truthy].
    assert (Early.ensure_key k (VObj []) this = (Return (VObj []), this1)) as Hkey.
    { unfold Early.ensure_key. cbn [isNil].
      rewrite (legacy_bind_Return _ _ _ _ _ (early_get_read this k s None Hk)).
      rewrite He. cbn [default truthy].
      rewrite (legacy_bind_Return _ _ _ _ _ (early_get_read this k s None Hk)).
      rewrite He. cbn [default truthy].
      unfold mbind, Legacy.M_bind. by rewrite (early_set_whole _ _ _ _ Hk). }
    rewrite (legacy_bind_Return _ _ _ _ _ Hkey).
    unfold mbind, Legacy.M_bind. rewrite (early_set_path_read _ _ _ _ _ Hk), He1.
    cbn. unfold this1. cbn. by rewrite !insert_insert_eq.
  - by rewrite (early_get_read _ _ _ _ Hk), He1.
Qed.

Lemma early_ensure_path_stores_no_default_witness :
  ∃ this', Early.ensure (KStr "u") (VStr "x") (Some ["tags"; "0"]) legacy_empty =
             (Return (VStr "x"), this') ∧
           Legacy.entries this' = <["u" := VObj []]> (Legacy.entries legacy_empty) ∧
           Early.get (KStr "u") None this' = (Return (VObj []), this').
Proof.
  apply (early_ensure_path_stores_no_default legacy_empty (KStr "u") "u" (VStr "x")
           ["tags"; "0"]); reflexivity.
Defined.
